(** * Quiz session of [src/apps/pages/programs/StudyPrograms/quiz.py]

    A shallow embedding of the three functions of the page,
    [get_quiz_data], [display_question] and [start_quiz], together with the
    parts of the Python and Streamlit runtime they lean on, and the
    properties of the quiz session proved about them.

    Conventions.
    - Python [int] is [Z]; Python [str] is [string], read as ASCII text
      (a byte above 127 is neither a digit nor white space); statements
      that depend on how a text is read say so ([isascii],
      [ascii_field]);
      Python [None] in a slot of type [str] is [None : option string].
    - [st.session_state] is the record [Store]; an absent key is [None]
      in the field (or no entry in the map, for the per-question keys
      [all_answers_<i>] and [selected_<i>]).
    - One execution of the script ("render pass") is a computation in the
      monad [M]: it threads the session store, may stop with a Python
      exception (the store keeps what was written before), and collects
      what was rendered and which URLs were requested.
    - Everything the script reads from outside in one pass (widget values,
      button clicks, the provider's answer, the random draws) is the
      record [Env]. *)

From Stdlib Require Import ZArith Ascii String List Lia.
From stdpp Require Import base option list gmap strings pretty.

Local Open Scope Z_scope.

(** ** Python runtime *)

Module Py.

(** The exceptions the page can meet. *)
Inductive Exn :=
| KeyError
| AttributeError
| ValueError
| IndexError
| ConnectionError
| JSONDecodeError
| StreamlitAPIException.

Definition is_digit (c : ascii) : bool :=
  let n := nat_of_ascii c in (48 <=? n)%nat && (n <=? 57)%nat.

(** [str.isspace] on the ASCII range: TAB..CR, FS..US and the blank. *)
Definition is_space (c : ascii) : bool :=
  let n := nat_of_ascii c in
  ((9 <=? n)%nat && (n <=? 13)%nat) || ((28 <=? n)%nat && (n <=? 32)%nat).

Fixpoint all_chars (p : ascii → bool) (s : string) : bool :=
  match s with
  | EmptyString => true
  | String c s' => p c && all_chars p s'
  end.

(** [s.isdigit()]: at least one character, all of them digits. *)
Definition isdigit (s : string) : bool :=
  match s with
  | EmptyString => false
  | _ => all_chars is_digit s
  end.

Fixpoint lstrip (s : string) : string :=
  match s with
  | EmptyString => EmptyString
  | String c s' => if is_space c then lstrip s' else s
  end.

Definition rstrip (s : string) : string :=
  String.rev (lstrip (String.rev s)).

(** [s.strip()] *)
Definition strip (s : string) : string := rstrip (lstrip s).

Definition digit_value (c : ascii) : Z := Z.of_nat (nat_of_ascii c) - 48.

Fixpoint int_go (acc : Z) (s : string) : option Z :=
  match s with
  | EmptyString => Some acc
  | String c s' =>
      if is_digit c then int_go (10 * acc + digit_value c) s' else None
  end.

(** [int(s)] on an unsigned decimal literal; [None] is [ValueError]. *)
Definition int (s : string) : option Z :=
  match s with
  | EmptyString => None
  | _ => int_go 0 s
  end.

Definition lower_char (c : ascii) : ascii :=
  let n := nat_of_ascii c in
  if (65 <=? n)%nat && (n <=? 90)%nat then ascii_of_nat (n + 32) else c.

(** [s.lower()] *)
Fixpoint lower (s : string) : string :=
  match s with
  | EmptyString => EmptyString
  | String c s' => String (lower_char c) (lower s')
  end.

(** [l.index(x)]: the first position holding [x]; [None] is
    [ValueError]. *)
Fixpoint index (x : string) (l : list string) : option nat :=
  match l with
  | [] => None
  | y :: l' => if decide (y = x) then Some 0%nat else S <$> index x l'
  end.

(** [l[i]] with Python's negative indices; [None] is [IndexError]. *)
Definition getitem {A} (l : list A) (i : Z) : option A :=
  let n := Z.of_nat (length l) in
  if 0 <=? i then l !! Z.to_nat i
  else if 0 <=? n + i then l !! Z.to_nat (n + i)
  else None.

(** [x[i], x[j] = x[j], x[i]] *)
Definition swap {A} (i j : nat) (x : list A) : list A :=
  match x !! i, x !! j with
  | Some a, Some b => <[j:=a]> (<[i:=b]> x)
  | _, _ => x
  end.

(** The loop of [random.shuffle]:
    [for i in reversed(range(1, len(x))): j = randbelow(i + 1); swap].
    [i] runs from [n] down to [1]; the generator is the list of raw
    draws, each reduced to [0 .. i] as [randbelow (i + 1)] does; a
    generator that has run dry draws [0]. *)
Fixpoint shuffle_from {A} (n : nat) (rnd : list nat) (x : list A) : list A :=
  match n with
  | O => x
  | S n' =>
      let j := (hd 0%nat rnd mod (n + 1))%nat in
      shuffle_from n' (tl rnd) (swap n j x)
  end.

(** [random.shuffle(x)] *)
Definition shuffle {A} (rnd : list nat) (x : list A) : list A :=
  shuffle_from (length x - 1) rnd x.

End Py.

Import Py.

(** ** Data *)

(** One element of the provider's [results] array. *)
Record Question := {
  question : string;
  correct_answer : string;
  incorrect_answers : list string;
}.

(** The decoded body of a provider response. *)
Record ApiData := {
  response_code : Z;
  results : list Question;
}.

(** What [requests.get(url)] can do: raise, or answer with a status code
    and a body; [None] is a body on which [response.json()] raises. *)
Inductive HttpResult :=
| Unreachable
| Response (status_code : Z) (body : option ApiData).

(** [st.session_state].  The keys [all_answers_<i>] and [selected_<i>] are
    the two maps; a stored [selected_<i>] may be Python's [None]. *)
Record Store := {
  current_question : option Z;
  score : option Z;
  quiz_finished : option bool;
  quiz_data : option (list Question);
  all_answers : gmap Z (list string);
  selected : gmap Z (option string);
}.

(** The session store of a browser session that has just opened. *)
Definition empty_store : Store :=
  {| current_question := None; score := None; quiz_finished := None;
     quiz_data := None; all_answers := ∅; selected := ∅ |}.

(** What a pass puts on the page. *)
Inductive UiEvent :=
| Title (text : string)
| Write (text : string)
| Error (text : string)
| Success (text : string)
| Radio (label : string) (options : list string) (index : nat).

(** The options of the difficulty select box. *)
Inductive Difficulty := Random | Easy | Medium | Hard.

Definition difficulty_label (d : Difficulty) : string :=
  match d with
  | Random => "Random" | Easy => "Easy" | Medium => "Medium" | Hard => "Hard"
  end.

(** The outside world of one pass. *)
Record Env := {
  category_input : string;        (* value of the text input *)
  difficulty_choice : Difficulty; (* value of the select box *)
  question_count : Z;             (* value of the slider *)
  start_clicked : bool;           (* st.button("Start Quiz") *)
  http : string → HttpResult;     (* the provider, by request URL *)
  draws : list nat;               (* the random generator *)
  radio_pick : option nat;        (* option picked by the user, if any *)
  submit_clicked : bool;          (* st.button("Submit Answer") *)
}.

(** ** The pass monad *)

(** What a computation leaves behind: its value or the exception that
    stopped it, the session store, what it rendered and the URLs it
    requested. *)
Record Outcome (A : Type) := {
  result : Exn + A;
  final : Store;
  shown : list UiEvent;
  requested : list string;
}.
Arguments result {A} _.
Arguments final {A} _.
Arguments shown {A} _.
Arguments requested {A} _.

Definition M (A : Type) : Type := Store → Outcome A.

Definition ret {A} (a : A) : M A :=
  λ s, {| result := inr a; final := s; shown := []; requested := [] |}.

Definition raise {A} (e : Exn) : M A :=
  λ s, {| result := inl e; final := s; shown := []; requested := [] |}.

Definition bind {A B} (m : M A) (f : A → M B) : M B :=
  λ s,
    match m s with
    | {| result := inr a; final := s1; shown := u1; requested := r1 |} =>
        match f a s1 with
        | {| result := v; final := s2; shown := u2; requested := r2 |} =>
            {| result := v; final := s2;
               shown := u1 ++ u2; requested := r1 ++ r2 |}
        end
    | {| result := inl e; final := s1; shown := u1; requested := r1 |} =>
        {| result := inl e; final := s1; shown := u1; requested := r1 |}
    end.

Declare Scope pass_scope.
Delimit Scope pass_scope with pass.
Notation "x <- m ;; k" := (bind m (λ x, k))
  (at level 100, m at next level, right associativity) : pass_scope.
Notation "m ;; k" := (bind m (λ _, k))
  (at level 100, right associativity) : pass_scope.
Local Open Scope pass_scope.

Definition gets {A} (f : Store → A) : M A :=
  λ s, {| result := inr (f s); final := s; shown := []; requested := [] |}.

Definition modify (f : Store → Store) : M unit :=
  λ s, {| result := inr tt; final := f s; shown := []; requested := [] |}.

Definition emit (e : UiEvent) : M unit :=
  λ s, {| result := inr tt; final := s; shown := [e]; requested := [] |}.

Definition log_request (url : string) : M unit :=
  λ s, {| result := inr tt; final := s; shown := []; requested := [url] |}.

(** Reading a key that may be absent raises. *)
Definition demand {A} (e : Exn) (o : option A) : M A :=
  match o with
  | Some a => ret a
  | None => raise e
  end.

(** Field updates of the store. *)
Definition set_current_question (v : Z) (s : Store) : Store :=
  {| current_question := Some v; score := score s;
     quiz_finished := quiz_finished s; quiz_data := quiz_data s;
     all_answers := all_answers s; selected := selected s |}.

Definition set_score (v : Z) (s : Store) : Store :=
  {| current_question := current_question s; score := Some v;
     quiz_finished := quiz_finished s; quiz_data := quiz_data s;
     all_answers := all_answers s; selected := selected s |}.

Definition set_quiz_finished (v : bool) (s : Store) : Store :=
  {| current_question := current_question s; score := score s;
     quiz_finished := Some v; quiz_data := quiz_data s;
     all_answers := all_answers s; selected := selected s |}.

Definition set_quiz_data (v : list Question) (s : Store) : Store :=
  {| current_question := current_question s; score := score s;
     quiz_finished := quiz_finished s; quiz_data := Some v;
     all_answers := all_answers s; selected := selected s |}.

Definition set_all_answers (i : Z) (v : list string) (s : Store) : Store :=
  {| current_question := current_question s; score := score s;
     quiz_finished := quiz_finished s; quiz_data := quiz_data s;
     all_answers := <[i:=v]> (all_answers s); selected := selected s |}.

Definition set_selected (i : Z) (v : option string) (s : Store) : Store :=
  {| current_question := current_question s; score := score s;
     quiz_finished := quiz_finished s; quiz_data := quiz_data s;
     all_answers := all_answers s; selected := <[i:=v]> (selected s) |}.

(** ** Streamlit widgets *)

(** The value of a radio group: the option the user picked among those
    listed, else the pre-selected one; [None] without options. *)
Definition radio_value (options : list string) (index : nat)
    (pick : option nat) : option string :=
  match options !! index with
  | None => None
  | Some preselected =>
      Some (match pick with
            | Some k => default preselected (options !! k)
            | None => preselected
            end)
  end.

(** [st.radio(label, options, index=index)]: renders the options with the
    one at [index] pre-selected and returns the group's value.  Streamlit
    refuses an [index] outside a non-empty list of options. *)
Definition st_radio (label : string) (options : list string) (index : nat)
    (pick : option nat) : M (option string) :=
  match options with
  | [] => emit (Radio label options index);; ret None
  | _ :: _ =>
      if decide (index < length options)%nat then
        emit (Radio label options index);;
        ret (radio_value options index pick)
      else raise StreamlitAPIException
  end.

(** ** The page *)

Definition base_url : string := "https://opentdb.com/api.php?".

(** Lines 17-28: the request URL.  [if category:] and [if difficulty:]
    are Python truth tests: [None], [0] and [""] are false. *)
Definition build_url (category : option Z) (difficulty : option string)
    (question_count : Z) : string :=
  let url := base_url +:+ "amount=" +:+ pretty question_count in
  let url :=
    match category with
    | Some c => if decide (c = 0) then url else url +:+ "&category=" +:+ pretty c
    | None => url
    end in
  let url :=
    match difficulty with
    | Some d => if decide (d = "") then url else url +:+ "&difficulty=" +:+ d
    | None => url
    end in
  url +:+ "&type=multiple".

(** Lines 5-42. *)
Definition get_quiz_data (env : Env) (category : option Z)
    (difficulty : option string) (question_count : Z) : M (list Question) :=
  let url := build_url category difficulty question_count in
  log_request url;;
  match http env url with
  | Unreachable => raise ConnectionError
  | Response status_code body =>
      if decide (status_code ≠ 200) then
        emit (Error "Failed to retrieve questions. Please try again later.");;
        ret []
      else
        data <- demand JSONDecodeError body;;
        if decide (response_code data ≠ 0) then
          emit (Error "No questions found for the selected options.");;
          ret []
        else ret (results data)
  end.

(** The truth value of a stored selection: [None] and [""] are false. *)
Definition truthy (v : option string) : bool :=
  match v with
  | Some s => if decide (s = "") then false else true
  | None => false
  end.

(** Lines 44-90. *)
Definition display_question (env : Env) (question_data : Question)
    (question_idx : Z) : M unit :=
  let correct := correct_answer question_data in
  let incorrect := incorrect_answers question_data in
  (* 61-63: combine and shuffle once *)
  cached <- gets (λ s, all_answers s !! question_idx);;
  match cached with
  | None =>
      modify (set_all_answers question_idx
                (shuffle (draws env) (incorrect ++ [correct])))
  | Some _ => ret tt
  end;;
  (* 65 *)
  answers <- bind (gets (λ s, all_answers s !! question_idx)) (demand KeyError);;
  (* 68 *)
  emit (Write ("**Question " +:+ pretty (question_idx + 1) +:+ ":** "
               +:+ question question_data));;
  (* 71-72 *)
  stored <- gets (λ s, selected s !! question_idx);;
  match stored with
  | None => modify (set_selected question_idx None)
  | Some _ => ret tt
  end;;
  (* 75-77 *)
  sel <- bind (gets (λ s, selected s !! question_idx)) (demand KeyError);;
  index <- (if truthy sel
            then demand ValueError (Py.index (default "" sel) answers)
            else ret 0%nat);;
  selected_answer <- st_radio "Select your answer:" answers index (radio_pick env);;
  (* 80-90 *)
  if submit_clicked env then
    modify (set_selected question_idx selected_answer);;
    (if decide (selected_answer = Some correct) then
       emit (Success "Correct!");;
       sc <- bind (gets score) (demand AttributeError);;
       modify (set_score (sc + 1))
     else
       emit (Error ("Wrong! The correct answer was: " +:+ correct)));;
    cq <- bind (gets current_question) (demand AttributeError);;
    modify (set_current_question (cq + 1))
  else ret tt.

(** Lines 100-106: the category field.  [inl tt] is the branch that
    reports the input and returns. *)
Definition parse_category (category_input : string) : M (unit + option Z) :=
  if isdigit category_input then
    c <- demand ValueError (Py.int category_input);;
    ret (inr (Some c))
  else if decide (strip category_input = "") then
    ret (inr None)
  else
    emit (Error "Invalid category ID. Please enter a valid number or leave it blank for random.");;
    ret (inl tt).

(** Line 109. *)
Definition parse_difficulty (d : Difficulty) : option string :=
  let difficulty := difficulty_label d in
  if decide (difficulty ≠ "Random") then Some (lower difficulty) else None.

(** Lines 114-123: the start button. *)
Definition start_block (env : Env) (category : option Z)
    (difficulty : option string) : M unit :=
  if start_clicked env then
    fetched <- get_quiz_data env category difficulty (question_count env);;
    match fetched with
    | [] => ret tt
    | _ :: _ =>
        modify (set_current_question 0);;
        modify (set_score 0);;
        modify (set_quiz_finished false);;
        modify (set_quiz_data fetched)
    end
  else ret tt.

(** Lines 126-135: the current question, or the final score. *)
Definition render_block (env : Env) : M unit :=
  present <- gets (λ s, bool_decide (is_Some (quiz_data s)));;
  if present then
    finished <- bind (gets quiz_finished) (demand AttributeError);;
    if negb finished then
      current_question_idx <- bind (gets current_question) (demand AttributeError);;
      qs <- bind (gets quiz_data) (demand AttributeError);;
      if decide (current_question_idx < Z.of_nat (length qs)) then
        current_question_data <- demand IndexError (getitem qs current_question_idx);;
        display_question env current_question_data current_question_idx
      else
        sc <- bind (gets score) (demand AttributeError);;
        emit (Write ("### Quiz finished! Your final score is " +:+ pretty sc
                     +:+ "/" +:+ pretty (Z.of_nat (length qs)) +:+ "."));;
        modify (set_quiz_finished true)
    else ret tt
  else ret tt.

(** Lines 92-135. *)
Definition start_quiz (env : Env) : M unit :=
  emit (Title "Quiz Generator");;
  emit (Write "Customize your quiz and test your knowledge!");;
  parsed <- parse_category (category_input env);;
  match parsed with
  | inl _ => ret tt
  | inr category =>
      let difficulty := parse_difficulty (difficulty_choice env) in
      start_block env category difficulty;;
      render_block env
  end.

(** ** Running passes *)

(** The store after one pass. *)
Definition pass (env : Env) (s : Store) : Store := final (start_quiz env s).

(** The stores a browser session can be in: it opens empty, and every
    interaction runs one pass. *)
Inductive reachable : Store → Prop :=
| reachable_empty : reachable empty_store
| reachable_pass env s : reachable s → reachable (pass env s).

(** A default environment for the examples: nothing typed, nothing
    clicked, the provider down. *)
Definition idle : Env :=
  {| category_input := ""; difficulty_choice := Random; question_count := 5;
     start_clicked := false; http := λ _, Unreachable; draws := [];
     radio_pick := None; submit_clicked := false |}.

(** * Vocabulary of the statements *)

(** ** Outcomes of a fetch *)

(** What one call of [get_quiz_data] lets one tell, from the message it
    showed and the list it returned. *)
Inductive FetchOutcome :=
| Transport
| NoResults
| Fetched (qs : list Question).

Definition observe (r : Outcome (list Question)) : option FetchOutcome :=
  match result r, shown r with
  | inr qs, [] => Some (Fetched qs)
  | inr [], [Error msg] =>
      if decide (msg = "Failed to retrieve questions. Please try again later.")
      then Some Transport
      else if decide (msg = "No questions found for the selected options.")
      then Some NoResults
      else None
  | _, _ => None
  end.


(** ** Presenting a question, in closed form *)

(** The options of question [i]: the cached list, or a fresh shuffle. *)
Definition answers_at (env : Env) (q : Question) (i : Z) (s : Store) : list string :=
  default (shuffle (draws env) (incorrect_answers q ++ [correct_answer q]))
          (all_answers s !! i).

(** The stored selection of question [i], [None] when there is none yet. *)
Definition stored_at (i : Z) (s : Store) : option string :=
  default None (selected s !! i).

(** The store once lines 61-72 have run. *)
Definition prepared (env : Env) (q : Question) (i : Z) (s : Store) : Store :=
  set_selected i (stored_at i s) (set_all_answers i (answers_at env q i s) s).

(** The [index] argument of line 76; [None] is [ValueError]. *)
Definition preselect (sel : option string) (answers : list string) : option nat :=
  if truthy sel then Py.index (default "" sel) answers else Some 0%nat.

(** Line 68. *)
Definition header (q : Question) (i : Z) : UiEvent :=
  Write ("**Question " +:+ pretty (i + 1) +:+ ":** " +:+ question q).

(** The outcome of lines 81-90 for the value [choice] of the radio
    group, from the store [s1]. *)
Definition submit_outcome (q : Question) (i : Z) (choice : option string)
    (s1 : Store) : Outcome unit :=
  let s2 := set_selected i choice s1 in
  if decide (choice = Some (correct_answer q)) then
    match score s1 with
    | None =>
        {| result := inl AttributeError; final := s2;
           shown := [Success "Correct!"]; requested := [] |}
    | Some sc =>
        match current_question s1 with
        | None =>
            {| result := inl AttributeError; final := set_score (sc + 1) s2;
               shown := [Success "Correct!"]; requested := [] |}
        | Some cq =>
            {| result := inr tt;
               final := set_current_question (cq + 1) (set_score (sc + 1) s2);
               shown := [Success "Correct!"]; requested := [] |}
        end
    end
  else
    let wrong := Error ("Wrong! The correct answer was: " +:+ correct_answer q) in
    match current_question s1 with
    | None =>
        {| result := inl AttributeError; final := s2;
           shown := [wrong]; requested := [] |}
    | Some cq =>
        {| result := inr tt; final := set_current_question (cq + 1) s2;
           shown := [wrong]; requested := [] |}
    end.

(** ** The controller, in closed form *)

(** The store after lines 120-123. *)
Definition initialised (qs : list Question) (s : Store) : Store :=
  set_quiz_data qs (set_quiz_finished false (set_score 0 (set_current_question 0 s))).

(** Line 134. *)
Definition summary (sc : Z) (n : nat) : UiEvent :=
  Write ("### Quiz finished! Your final score is " +:+ pretty sc
         +:+ "/" +:+ pretty (Z.of_nat n) +:+ ".").

(** Lines 93-94. *)
Definition banner : list UiEvent :=
  [Title "Quiz Generator";
   Write "Customize your quiz and test your knowledge!"].

(** Line 105. *)
Definition invalid_category : UiEvent :=
  Error "Invalid category ID. Please enter a valid number or leave it blank for random.".

(** The category the text input stands for: [Some None] for a blank
    field, [Some (Some n)] for digits, [None] when it is refused. *)
Definition category_of (input : string) : option (option Z) :=
  if isdigit input then Some <$> Py.int input
  else if decide (strip input = "") then Some None
  else None.

(** ** Invariants *)

(** Every stored answer is one of the options cached for its question. *)
Definition selection_ok (s : Store) : Prop :=
  ∀ i v, selected s !! i = Some (Some v) →
         ∃ l, all_answers s !! i = Some l ∧ v ∈ l.

(** Once a quiz is stored, its counters are stored too and are in range. *)
Definition session_ok (s : Store) : Prop :=
  ∀ qs, quiz_data s = Some qs →
    ∃ cq sc fin,
      current_question s = Some cq ∧ score s = Some sc ∧
      quiz_finished s = Some fin ∧
      0 ≤ sc ∧ sc ≤ cq ∧ cq ≤ Z.of_nat (length qs).

(** ** Kinds of passes *)

(** The pass starts a new quiz: the category is accepted, the start
    button is pressed, and the fetch returns at least one question. *)
Definition restarts (env : Env) (s : Store) : Prop :=
  ∃ c q qs,
    category_of (category_input env) = Some c ∧
    start_clicked env = true ∧
    result (get_quiz_data env c (parse_difficulty (difficulty_choice env))
              (question_count env) s) = inr (q :: qs).

(** The same interaction without the press on the start button. *)
Definition without_start (env : Env) : Env :=
  {| category_input := category_input env;
     difficulty_choice := difficulty_choice env;
     question_count := question_count env;
     start_clicked := false;
     http := http env; draws := draws env;
     radio_pick := radio_pick env; submit_clicked := submit_clicked env |}.

(** The stores reached from [s] by passes that keep the question list. *)
Inductive quiz_continues (s : Store) : Store → Prop :=
| continues_here : quiz_continues s s
| continues_pass env s' :
    quiz_continues s s' → quiz_data (pass env s') = quiz_data s' →
    quiz_continues s (pass env s').

(** ** Sample questions, interactions and stores *)

Definition sum_question : Question :=
  {| question := "2+2?"; correct_answer := "4";
     incorrect_answers := ["3"; "5"; "6"] |}.

Definition capital_question : Question :=
  {| question := "Capital of France?"; correct_answer := "Paris";
     incorrect_answers := ["Lyon"; "Nice"; "Lille"] |}.

(** A question whose wrong answers repeat. *)
Definition twin_question : Question :=
  {| question := "1+1?"; correct_answer := "2";
     incorrect_answers := ["3"; "3"; "4"] |}.

(** The user presses "Start Quiz"; the provider answers every request
    with status [code], [response_code] [rc] and the questions [qs]. *)
Definition sample_env (code : Z) (rc : Z) (qs : list Question) : Env :=
  {| category_input := ""; difficulty_choice := Random; question_count := 5;
     start_clicked := true;
     http := λ _, Response code (Some {| response_code := rc; results := qs |});
     draws := []; radio_pick := None; submit_clicked := false |}.

(** The user presses "Start Quiz" and the provider answers with [qs]. *)
Definition press_start (qs : list Question) : Env := sample_env 200 0 qs.

(** The start button is pressed while the provider cannot be reached. *)
Definition provider_down : Env :=
  {| category_input := ""; difficulty_choice := Random; question_count := 5;
     start_clicked := true; http := λ _, Unreachable; draws := [];
     radio_pick := None; submit_clicked := false |}.

(** The user types [text] in the category field and presses "Start
    Quiz"; the provider has one question. *)
Definition typed_category (text : string) : Env :=
  {| category_input := text; difficulty_choice := Random; question_count := 5;
     start_clicked := true;
     http := λ _, Response 200 (Some {| response_code := 0;
                                        results := [sum_question] |});
     draws := []; radio_pick := None; submit_clicked := false |}.

(** The user picks option [k] and presses "Submit Answer". *)
Definition submit_pick (k : nat) : Env :=
  {| category_input := ""; difficulty_choice := Random; question_count := 5;
     start_clicked := false; http := λ _, Unreachable; draws := [];
     radio_pick := Some k; submit_clicked := true |}.

(** A store in which a one-question quiz has just been started. *)
Definition started_store : Store :=
  {| current_question := Some 0; score := Some 0; quiz_finished := Some false;
     quiz_data := Some [capital_question]; all_answers := ∅; selected := ∅ |}.

(** A session in which a first quiz was answered and a second one
    started. *)
Definition second_quiz_store : Store :=
  pass (press_start [capital_question])
    (pass (submit_pick 2) (pass (press_start [sum_question]) empty_store)).

(** ** Further vocabulary: scores, runs of passes, the first quiz *)

(** Question [i] of [qs] has its correct answer stored as selection. *)
Definition answered_right (s : Store) (qs : list Question) (i : nat) : bool :=
  match qs !! i with
  | Some q =>
      bool_decide (selected s !! Z.of_nat i = Some (Some (correct_answer q)))
  | None => false
  end.

(** How many of the first [n] questions are answered right. *)
Fixpoint right_answers (s : Store) (qs : list Question) (n : nat) : nat :=
  match n with
  | O => O
  | S k => (right_answers s qs k + if answered_right s qs k then 1 else 0)%nat
  end.

(** The score is the number of right answers among the questions
    already submitted. *)
Definition score_ok (s : Store) : Prop :=
  ∀ qs cq sc,
    quiz_data s = Some qs → current_question s = Some cq → score s = Some sc →
    sc = Z.of_nat (right_answers s qs (Z.to_nat cq)).

(** A stored quiz has questions, and is finished only at its end. *)
Definition quiz_ok (s : Store) : Prop :=
  ∀ qs, quiz_data s = Some qs →
    qs ≠ [] ∧
    (quiz_finished s = Some true →
     current_question s = Some (Z.of_nat (length qs))).

(** The store after the passes [envs], first to last. *)
Definition passes (envs : list Env) (s : Store) : Store :=
  foldl (λ s' env, pass env s') s envs.


(** The stores of a browser session up to the end of its first quiz: a
    pass may start a quiz only while none is stored. *)
Inductive first_quiz : Store → Prop :=
| first_quiz_empty : first_quiz empty_store
| first_quiz_pass env s :
    first_quiz s → quiz_data s = None ∨ ¬ restarts env s →
    first_quiz (pass env s).

(** Every cached answer set belongs to the question stored at its
    index. *)
Definition cache_fits (s : Store) : Prop :=
  ∀ i l, all_answers s !! i = Some l →
    ∃ qs q,
      quiz_data s = Some qs ∧ 0 ≤ i ∧ qs !! Z.to_nat i = Some q ∧
      l ≡ₚ incorrect_answers q ++ [correct_answer q].

(** No answer is stored for the current question or a later one, and
    without a quiz there is no current question. *)
Definition unanswered_ahead (s : Store) : Prop :=
  (quiz_data s = None → current_question s = None) ∧
  ∀ i v, selected s !! i = Some (Some v) →
         ∃ cq, current_question s = Some cq ∧ i < cq.

(** ** Text the model reads as Python does *)

(** [s.isascii()]: every character is below U+0080. *)
Definition isascii (s : string) : bool :=
  all_chars (λ c, (nat_of_ascii c <? 128)%nat) s.

(** CPython's default bound on the number of digits [int] converts
    ([sys.int_max_str_digits]); a longer string of digits raises
    [ValueError]. *)
Definition int_max_str_digits : nat := 4300.

(** A category field on which [isdigit], [strip] and [int] of module [Py]
    are those of Python: ASCII characters only, and no more of them than
    [int] converts.  Outside ASCII Python knows further digits (U+0663),
    digits that [int] refuses (U+00B2) and further white space (U+00A0),
    which the model does not read. *)
Definition ascii_field (s : string) : bool :=
  isascii s && (String.length s <=? int_max_str_digits)%nat.



(** * Properties *)

(** ** The runtime *)

Section runtime.

Context {A : Type}.
Implicit Types x l : list A.

Lemma swap_perm i j x : swap i j x ≡ₚ x.
Proof.
  unfold swap.
  destruct (x !! i) as [a|] eqn:Hi; [|done].
  destruct (x !! j) as [b|] eqn:Hj; [|done].
  by apply Permutation_insert_swap.
Qed.

Lemma shuffle_from_perm n rnd x : shuffle_from n rnd x ≡ₚ x.
Proof.
  revert rnd x. induction n as [|n IH]; intros rnd x; [done|].
  cbn [shuffle_from]. rewrite IH. apply swap_perm.
Qed.

(** [random.shuffle] rearranges and nothing else. *)
Lemma shuffle_perm rnd x : shuffle rnd x ≡ₚ x.
Proof. apply shuffle_from_perm. Qed.

End runtime.

Lemma index_lookup v l k : Py.index v l = Some k → l !! k = Some v.
Proof.
  revert k. induction l as [|y l IH]; intros k; [done|].
  cbn [Py.index]. case_decide as Hy.
  - intros [= <-]. by subst.
  - destruct (Py.index v l) as [k'|]; [|done].
    intros [= <-]. by apply IH.
Qed.

Lemma index_elem_of v l : v ∈ l → is_Some (Py.index v l).
Proof.
  induction l as [|y l IH]; [by intros ?%elem_of_nil|].
  intros [->|Hv]%elem_of_cons; cbn [Py.index]; case_decide; eauto; [done|].
  destruct (IH Hv) as [k ->]. by eexists.
Qed.

Lemma index_lt v l k : Py.index v l = Some k → (k < length l)%nat.
Proof. intros H%index_lookup. by eapply lookup_lt_Some. Qed.

Lemma all_chars_rev_app p s1 s2 :
  all_chars p (String.rev_app s1 s2) = all_chars p s1 && all_chars p s2.
Proof.
  revert s2. induction s1 as [|c s1 IH]; intros s2; [done|].
  cbn [String.rev_app all_chars]. rewrite IH. cbn [all_chars].
  by destruct (p c), (all_chars p s1), (all_chars p s2).
Qed.

Lemma all_chars_rev p s : all_chars p (String.rev s) = all_chars p s.
Proof.
  unfold String.rev. rewrite all_chars_rev_app. cbn.
  by rewrite andb_true_r.
Qed.

Lemma rev_app_empty s1 s2 : String.rev_app s1 s2 = "" → s1 = "" ∧ s2 = "".
Proof.
  revert s2. induction s1 as [|c s1 IH]; intros s2; [done|].
  cbn [String.rev_app]. intros [_ [=]]%IH.
Qed.

Lemma lstrip_empty s : lstrip s = "" ↔ all_chars is_space s = true.
Proof.
  induction s as [|c s IH]; [done|].
  cbn [lstrip all_chars]. destruct (is_space c); [done|].
  split; [done | by intros [=]].
Qed.

Lemma all_chars_lstrip s :
  all_chars is_space (lstrip s) = all_chars is_space s.
Proof.
  induction s as [|c s IH]; [done|].
  cbn [lstrip]. destruct (is_space c) eqn:Hc; [by cbn; rewrite Hc|done].
Qed.

(** The test [s.strip() == ""] of line 102 holds exactly of the strings
    made of white space only. *)
Lemma strip_empty s : strip s = "" ↔ all_chars is_space s = true.
Proof.
  unfold strip, rstrip, String.rev at 1.
  rewrite <-all_chars_lstrip, <-(all_chars_rev _ (lstrip s)), <-lstrip_empty.
  split.
  - by intros [? _]%rev_app_empty.
  - by intros ->.
Qed.

Lemma int_go_digits acc s :
  all_chars is_digit s = true → is_Some (int_go acc s).
Proof.
  revert acc. induction s as [|c s IH]; intros acc; [by eauto|].
  cbn [all_chars int_go]. intros [-> ?]%andb_true_iff. by apply IH.
Qed.

Lemma int_go_nonneg acc s n : 0 ≤ acc → int_go acc s = Some n → 0 ≤ n.
Proof.
  revert acc. induction s as [|c s IH]; intros acc Hacc; cbn [int_go].
  - by intros [= <-].
  - destruct (is_digit c) eqn:Hc; [|done]. apply IH.
    unfold is_digit in Hc. apply andb_true_iff in Hc as [H1%Nat.leb_le _].
    unfold digit_value. lia.
Qed.

(** Under the guard [isdigit] of line 100, [int] of line 101 succeeds and
    is not negative. *)
Lemma int_isdigit s : isdigit s = true → ∃ n, Py.int s = Some n ∧ 0 ≤ n.
Proof.
  destruct s as [|c s]; [done|]. unfold isdigit, Py.int. intros H.
  destruct (int_go_digits 0 _ H) as [n Hn]. exists n. split; [done|].
  by eapply int_go_nonneg.
Qed.

(** ** Symbolic execution of a pass *)

Ltac pass_unfold :=
  unfold bind, gets, modify, emit, log_request, demand, ret, raise; cbn.

Ltac pass_known :=
  repeat match goal with
         | H : ?x = _ |- context [match ?x with _ => _ end] => rewrite H
         end.

(** Case analysis on an innermost scrutinee, that is, on the next test
    the program makes. *)
Ltac pass_case :=
  match goal with
  | |- context [match ?x with _ => _ end] =>
      lazymatch x with
      | context [match _ with _ => _ end] => fail
      | _ => destruct x eqn:?
      end
  end.

Ltac pass_step :=
  cbn; rewrite ?lookup_insert_eq; pass_known; cbn.

Ltac pass_run := pass_unfold; repeat (pass_step; try pass_case); pass_step.

(** ** Fetching *)

Lemma get_quiz_data_final env c d n s : final (get_quiz_data env c d n s) = s.
Proof. unfold get_quiz_data. pass_run; done. Qed.

Lemma get_quiz_data_requested env c d n s :
  requested (get_quiz_data env c d n s) = [build_url c d n].
Proof. unfold get_quiz_data. pass_run; done. Qed.

(** Only the network can make a fetch raise. *)
Lemma get_quiz_data_raises env c d n s e :
  result (get_quiz_data env c d n s) = inl e →
  e = ConnectionError ∨ e = JSONDecodeError.
Proof.
  unfold get_quiz_data. pass_run; intros; simplify_eq; eauto.
Qed.

Lemma parse_difficulty_cases d :
  parse_difficulty d
  = match d with
    | Random => None
    | Easy => Some "easy"
    | Medium => Some "medium"
    | Hard => Some "hard"
    end.
Proof. by destruct d; vm_compute. Qed.

Lemma string_app_assoc (s1 s2 s3 : string) :
  (s1 +:+ s2) +:+ s3 = s1 +:+ s2 +:+ s3.
Proof.
  induction s1 as [|a s1 IH]; [done|].
  change (String a ((s1 +:+ s2) +:+ s3) = String a (s1 +:+ s2 +:+ s3)).
  by rewrite IH.
Qed.

(** The request URL when the category is not zero: the amount, the
    category, the difficulty when one is chosen, the fixed type. *)
Lemma build_url_category c d n :
  c ≠ 0 →
  build_url (Some c) (parse_difficulty d) n
  = base_url +:+ "amount=" +:+ pretty n +:+ "&category=" +:+ pretty c
    +:+ match d with
        | Random => ""
        | Easy => "&difficulty=easy"
        | Medium => "&difficulty=medium"
        | Hard => "&difficulty=hard"
        end
    +:+ "&type=multiple".
Proof.
  intros Hc. unfold build_url. destruct (decide (c = 0)); [done|].
  rewrite parse_difficulty_cases.
  destruct d; try case_decide; try done; by rewrite ?string_app_assoc.
Qed.

Lemma build_url_no_category d n :
  build_url None (parse_difficulty d) n
  = base_url +:+ "amount=" +:+ pretty n
    +:+ match d with
        | Random => ""
        | Easy => "&difficulty=easy"
        | Medium => "&difficulty=medium"
        | Hard => "&difficulty=hard"
        end
    +:+ "&type=multiple".
Proof.
  unfold build_url.
  rewrite parse_difficulty_cases.
  destruct d; try case_decide; try done; by rewrite ?string_app_assoc.
Qed.

(** ** Presenting a question *)

Lemma radio_value_elem options k pick v :
  radio_value options k pick = Some v → v ∈ options.
Proof.
  unfold radio_value. destruct (options !! k) as [pre|] eqn:Hk; [|done].
  intros [= <-]. destruct pick as [j|]; cbn.
  - destruct (options !! j) as [x|] eqn:Hj; cbn;
      eapply list_elem_of_lookup_2; eauto.
  - by eapply list_elem_of_lookup_2.
Qed.

(** *** Closed form *)

Lemma store_eq (s1 s2 : Store) :
  current_question s1 = current_question s2 → score s1 = score s2 →
  quiz_finished s1 = quiz_finished s2 → quiz_data s1 = quiz_data s2 →
  all_answers s1 = all_answers s2 → selected s1 = selected s2 → s1 = s2.
Proof. destruct s1, s2; cbn; by intros -> -> -> -> -> ->. Qed.

Ltac pass_quiet := cbn -[Py.index radio_value shuffle].

Lemma display_question_closed env q i s :
  display_question env q i s
  = let answers := answers_at env q i s in
    let s1 := prepared env q i s in
    match preselect (stored_at i s) answers with
    | None => {| result := inl ValueError; final := s1;
                 shown := [header q i]; requested := [] |}
    | Some k =>
        let radio := Radio "Select your answer:" answers k in
        if submit_clicked env then
          let o := submit_outcome q i (radio_value answers k (radio_pick env)) s1 in
          {| result := result o; final := final o;
             shown := [header q i; radio] ++ shown o; requested := [] |}
        else
          {| result := inr tt; final := s1;
             shown := [header q i; radio]; requested := [] |}
    end.
Proof.
  unfold display_question, st_radio, submit_outcome, preselect, header,
    prepared, stored_at, answers_at.
  pass_unfold.
  repeat (pass_quiet; rewrite ?lookup_insert_eq; pass_known; pass_quiet;
          try pass_case).
  all: try done.
  all: try (f_equal; apply store_eq; cbn;
            rewrite ?insert_insert_eq, ?insert_id by done; done).
  all: exfalso;
    try match goal with
        | H : Py.index _ _ = Some _ |- _ => apply index_lt in H; cbn in H
        end;
    cbn in *; lia.
Qed.

(** *** Consequences *)

Ltac display_cases :=
  rewrite display_question_closed; cbn zeta; unfold submit_outcome;
  repeat case_match; cbn.

Lemma display_question_frame env q i s :
  let r := display_question env q i s in
  quiz_data (final r) = quiz_data s ∧
  quiz_finished (final r) = quiz_finished s ∧
  requested r = [].
Proof. cbn zeta. display_cases; done. Qed.

(** Lines 61-63 write the cache entry of [i] once; nothing else touches
    the cache. *)
Lemma display_question_answers env q i s :
  all_answers (final (display_question env q i s))
  = <[i:=answers_at env q i s]> (all_answers s).
Proof. display_cases; done. Qed.

Lemma display_question_selected_other env q i j s :
  j ≠ i → selected (final (display_question env q i s)) !! j = selected s !! j.
Proof.
  intros Hj. display_cases; rewrite ?lookup_insert_ne by done; done.
Qed.

Lemma display_question_counters env q i s sc cq :
  score s = Some sc → current_question s = Some cq →
  ∃ sc' cq',
    score (final (display_question env q i s)) = Some sc' ∧
    current_question (final (display_question env q i s)) = Some cq' ∧
    sc ≤ sc' ∧ cq ≤ cq' ≤ cq + 1 ∧ sc' - sc ≤ cq' - cq.
Proof.
  intros Hsc Hcq. display_cases; cbn in *; simplify_eq;
    eexists _, _; (split; [done|]); (split; [done|]); lia.
Qed.

(** With a consistent store the [index] lookup of line 76 finds its
    argument. *)
Lemma preselect_ok env q i s :
  selection_ok s →
  ∃ k, preselect (stored_at i s) (answers_at env q i s) = Some k
       ∧ (k < length (answers_at env q i s) ∨ answers_at env q i s = [])%nat.
Proof.
  intros Hok. unfold preselect, stored_at.
  destruct (selected s !! i) as [[v|]|] eqn:Hs; cbn.
  - destruct (Hok i v Hs) as (l & Hl & Hv).
    unfold answers_at. rewrite Hl. cbn.
    case_decide; cbn.
    + exists 0%nat. split; [done|]. destruct l; [by right|left; cbn; lia].
    + destruct (index_elem_of v l Hv) as [k Hk]. exists k. split; [done|].
      left. by eapply index_lt.
  - exists 0%nat. split; [done|].
    destruct (answers_at env q i s); [by right|left; cbn; lia].
  - exists 0%nat. split; [done|].
    destruct (answers_at env q i s); [by right|left; cbn; lia].
Qed.

Lemma display_question_selection_ok env q i s :
  selection_ok s → selection_ok (final (display_question env q i s)).
Proof.
  intros Hok j v. rewrite display_question_answers.
  destruct (decide (j = i)) as [->|Hj].
  - rewrite lookup_insert_eq. intros Hv. eexists; split; [done|].
    revert Hv. display_cases; rewrite !lookup_insert_eq; intros [= Hv].
    all: try by eapply radio_value_elem.
    all: unfold stored_at in Hv;
      destruct (selected s !! i) as [o|] eqn:Hs; cbn in Hv; [subst o|done];
      destruct (Hok i v Hs) as (l & Hl & Hin);
      unfold answers_at; by rewrite Hl.
  - rewrite display_question_selected_other, lookup_insert_ne by done.
    apply Hok.
Qed.

(** With a consistent store and both counters present, presenting a
    question raises nothing. *)
Lemma display_question_safe env q i s :
  selection_ok s → is_Some (score s) → is_Some (current_question s) →
  result (display_question env q i s) = inr tt.
Proof.
  intros Hok [sc Hsc] [cq Hcq].
  destruct (preselect_ok env q i s Hok) as (k & Hk & _).
  rewrite display_question_closed. cbn zeta. rewrite Hk.
  unfold submit_outcome. cbn. rewrite Hsc, Hcq.
  repeat case_match; done.
Qed.

(** ** The controller *)

(** From here on the blocks are used through their closed forms. *)
Arguments display_question : simpl never.
Arguments get_quiz_data : simpl never.

Lemma start_block_closed env c d s :
  start_block env c d s
  = if start_clicked env then
      let r := get_quiz_data env c d (question_count env) s in
      {| result := match result r with inl e => inl e | inr _ => inr tt end;
         final := match result r with
                  | inr (q :: qs) => initialised (q :: qs) s
                  | _ => s
                  end;
         shown := shown r; requested := requested r |}
    else ret tt s.
Proof.
  unfold start_block. destruct (start_clicked env); [|done].
  cbn zeta. unfold bind.
  pose proof (get_quiz_data_final env c d (question_count env) s) as Hf.
  destruct (get_quiz_data env c d (question_count env) s)
    as [[e|[|q qs]] s1 u1 r1]; cbn in *; subst s1; [done| |].
  - pass_unfold. by rewrite !app_nil_r.
  - pass_unfold. by rewrite !app_nil_r.
Qed.

Arguments start_block : simpl never.

Lemma render_block_closed env s :
  render_block env s
  = match quiz_data s with
    | None => ret tt s
    | Some qs =>
        match quiz_finished s with
        | None => raise AttributeError s
        | Some true => ret tt s
        | Some false =>
            match current_question s with
            | None => raise AttributeError s
            | Some cq =>
                if decide (cq < Z.of_nat (length qs)) then
                  match getitem qs cq with
                  | None => raise IndexError s
                  | Some q => display_question env q cq s
                  end
                else
                  match score s with
                  | None => raise AttributeError s
                  | Some sc =>
                      {| result := inr tt; final := set_quiz_finished true s;
                         shown := [summary sc (length qs)]; requested := [] |}
                  end
            end
        end
    end.
Proof.
  unfold render_block, summary. pass_unfold.
  destruct (quiz_data s) as [qs|] eqn:Hqs; cbn; [|done].
  destruct (quiz_finished s) as [[]|]; cbn; [done| |done].
  destruct (current_question s) as [cq|]; cbn; [|done].
  rewrite Hqs. cbn.
  case_decide; cbn.
  - destruct (getitem qs cq) as [q|]; cbn; [|done].
    by destruct (display_question env q cq s).
  - by destruct (score s).
Qed.

Arguments render_block : simpl never.

Lemma parse_category_closed input s :
  parse_category input s
  = if isdigit input then
      match Py.int input with
      | Some n => ret (inr (Some n)) s
      | None => raise ValueError s
      end
    else if decide (strip input = "") then ret (inr None) s
    else {| result := inr (inl tt); final := s;
            shown := [invalid_category]; requested := [] |}.
Proof.
  unfold parse_category. pass_unfold.
  destruct (isdigit input); [by destruct (Py.int input)|].
  by case_decide.
Qed.

Arguments parse_category : simpl never.

Lemma start_quiz_closed env s :
  start_quiz env s
  = match category_of (category_input env) with
    | None => {| result := inr tt; final := s;
                 shown := banner ++ [invalid_category]; requested := [] |}
    | Some category =>
        let b := start_block env category
                   (parse_difficulty (difficulty_choice env)) s in
        match result b with
        | inl e => {| result := inl e; final := final b;
                      shown := banner ++ shown b; requested := requested b |}
        | inr _ =>
            let r := render_block env (final b) in
            {| result := result r; final := final r;
               shown := banner ++ shown b ++ shown r;
               requested := requested b ++ requested r |}
        end
    end.
Proof.
  unfold start_quiz, category_of. unfold bind at 1 2 3. cbn.
  rewrite parse_category_closed.
  destruct (isdigit (category_input env)) eqn:Hd; cbn.
  - destruct (int_isdigit _ Hd) as (n & -> & _). cbn.
    unfold bind.
    destruct (start_block _ _ _ _) as [[e|[]] s1 u1 r1]; cbn; [done|].
    by destruct (render_block env s1).
  - case_decide; [|done]. cbn.
    unfold bind.
    destruct (start_block _ _ _ _) as [[e|[]] s1 u1 r1]; cbn; [done|].
    by destruct (render_block env s1).
Qed.

(** ** Invariants of the session *)

Lemma getitem_in_range {A} (l : list A) (i : Z) :
  0 ≤ i < Z.of_nat (length l) → getitem l i = l !! Z.to_nat i ∧ is_Some (getitem l i).
Proof.
  intros Hi. unfold getitem.
  destruct (Z.leb_spec 0 i); [|lia]. split; [done|].
  apply lookup_lt_is_Some. lia.
Qed.

Lemma render_block_selection_ok env s :
  selection_ok s → selection_ok (final (render_block env s)).
Proof.
  intros Hok. rewrite render_block_closed.
  repeat case_match; cbn; try done.
  by apply display_question_selection_ok.
Qed.

Lemma render_block_session_ok env s :
  session_ok s → session_ok (final (render_block env s)).
Proof.
  intros Hok. rewrite render_block_closed.
  destruct (quiz_data s) as [qs|] eqn:Hqs; [|done].
  destruct (Hok qs Hqs) as (cq & sc & fin & Hcq & Hsc & Hfin & ? & ? & ?).
  rewrite Hfin, Hcq, Hsc. destruct fin; [done|].
  case_decide.
  - destruct (getitem qs cq) as [q|]; [|done].
    intros qs'.
    destruct (display_question_frame env q cq s) as (-> & -> & _).
    rewrite Hqs. intros [= <-].
    destruct (display_question_counters env q cq s sc cq Hsc Hcq)
      as (sc' & cq' & -> & -> & ? & ? & ?).
    exists cq', sc', false. repeat split; try done; lia.
  - intros qs'. cbn. rewrite Hqs, Hcq, Hsc. intros [= <-].
    exists cq, sc, true. repeat split; try done; lia.
Qed.

Lemma start_block_selection_ok env c d s :
  selection_ok s → selection_ok (final (start_block env c d s)).
Proof.
  intros Hok. rewrite start_block_closed.
  destruct (start_clicked env); [|done]. cbn.
  repeat case_match; done.
Qed.

Lemma start_block_session_ok env c d s :
  session_ok s → session_ok (final (start_block env c d s)).
Proof.
  intros Hok. rewrite start_block_closed.
  destruct (start_clicked env); [|done]. cbn.
  repeat case_match; try done.
  intros qs' [= <-]. exists 0, 0, false. cbn. repeat split; lia.
Qed.

(** A pass either stops before the start block, or stops in it, or runs
    both blocks. *)
Lemma pass_cases env s :
  let d := parse_difficulty (difficulty_choice env) in
  pass env s = s
  ∨ (∃ c, pass env s = final (start_block env c d s))
  ∨ (∃ c, pass env s = final (render_block env (final (start_block env c d s)))).
Proof.
  cbn zeta. unfold pass. rewrite start_quiz_closed.
  destruct (category_of _) as [c|]; [|by left].
  cbn zeta. destruct (result (start_block _ _ _ _)); cbn; eauto.
Qed.

Lemma pass_selection_ok env s : selection_ok s → selection_ok (pass env s).
Proof.
  intros Hok. destruct (pass_cases env s) as [->|[[c ->]|[c ->]]]; [done| |].
  - by apply start_block_selection_ok.
  - by apply render_block_selection_ok, start_block_selection_ok.
Qed.

Lemma pass_session_ok env s : session_ok s → session_ok (pass env s).
Proof.
  intros Hok. destruct (pass_cases env s) as [->|[[c ->]|[c ->]]]; [done| |].
  - by apply start_block_session_ok.
  - by apply render_block_session_ok, start_block_session_ok.
Qed.

(** Both invariants hold throughout a browser session. *)
Lemma reachable_ok s : reachable s → selection_ok s ∧ session_ok s.
Proof.
  induction 1 as [|env s _ [IH1 IH2]].
  - split; [intros i v; cbn; by rewrite lookup_empty|by intros qs].
  - split; [by apply pass_selection_ok|by apply pass_session_ok].
Qed.

(** On a store that satisfies the invariants a block raises nothing,
    except when the provider cannot be reached or its body cannot be
    decoded. *)
Lemma render_block_safe env s :
  selection_ok s → session_ok s → result (render_block env s) = inr tt.
Proof.
  intros Hsel Hok. rewrite render_block_closed.
  destruct (quiz_data s) as [qs|] eqn:Hqs; [|done].
  destruct (Hok qs Hqs) as (cq & sc & fin & Hcq & Hsc & Hfin & ? & ? & ?).
  rewrite Hfin, Hcq, Hsc. destruct fin; [done|].
  case_decide; [|done].
  destruct (getitem_in_range qs cq) as [_ [q ->]]; [lia|].
  apply display_question_safe; eauto.
Qed.

Lemma start_block_result env c d s :
  result (start_block env c d s) = inr tt
  ∨ result (start_block env c d s) = inl ConnectionError
  ∨ result (start_block env c d s) = inl JSONDecodeError.
Proof.
  rewrite start_block_closed. destruct (start_clicked env); [|by left].
  cbn zeta. cbn [result].
  destruct (result (get_quiz_data _ _ _ _ _)) as [e|qs] eqn:Hr; [|by left].
  apply get_quiz_data_raises in Hr as [-> | ->]; eauto.
Qed.

Lemma pass_safe env s :
  reachable s →
  result (start_quiz env s) = inr tt
  ∨ result (start_quiz env s) = inl ConnectionError
  ∨ result (start_quiz env s) = inl JSONDecodeError.
Proof.
  intros [Hsel Hok]%reachable_ok. rewrite start_quiz_closed.
  destruct (category_of _) as [c|]; [|by left].
  cbn zeta.
  destruct (start_block_result env c (parse_difficulty (difficulty_choice env)) s)
    as [Hr|[Hr|Hr]]; rewrite Hr; cbn; eauto.
  left. apply render_block_safe.
  - by apply start_block_selection_ok.
  - by apply start_block_session_ok.
Qed.

(** ** Kinds of passes *)

(** A pass with an accepted category and no press on the start button
    is the render block. *)
Lemma plain_pass env s c :
  category_of (category_input env) = Some c → start_clicked env = false →
  start_quiz env s
  = let r := render_block env s in
    {| result := result r; final := final r; shown := banner ++ shown r;
       requested := requested r |}.
Proof.
  intros Hc Hs. rewrite start_quiz_closed, Hc. cbn zeta.
  rewrite start_block_closed, Hs. done.
Qed.

(** A pass that does not start a new quiz leaves the store alone or only
    runs the render block on it. *)
Lemma pass_restart_cases env s :
  restarts env s ∨ pass env s = s ∨ pass env s = final (render_block env s).
Proof.
  unfold pass. rewrite start_quiz_closed.
  destruct (category_of (category_input env)) as [c|] eqn:Hc; [|by right; left].
  cbn zeta. rewrite start_block_closed.
  destruct (start_clicked env) eqn:Hs; [|by right; right].
  cbn zeta.
  destruct (result (get_quiz_data _ _ _ _ _)) as [e|[|q qs]] eqn:Hr; cbn.
  - by right; left.
  - by right; right.
  - left. by exists c, q, qs.
Qed.

Lemma display_question_no_submit env q i s :
  submit_clicked env = false →
  let s' := final (display_question env q i s) in
  current_question s' = current_question s ∧ score s' = score s.
Proof.
  intros Hs. cbn zeta. rewrite display_question_closed. cbn zeta.
  rewrite Hs. by destruct (preselect _ _).
Qed.

(** The counters only move forward in the render block, the score by at
    most the advance of the index, the index by at most one. *)
Lemma render_block_counters env s sc cq :
  score s = Some sc → current_question s = Some cq →
  ∃ sc' cq',
    score (final (render_block env s)) = Some sc' ∧
    current_question (final (render_block env s)) = Some cq' ∧
    sc ≤ sc' ∧ cq ≤ cq' ≤ cq + 1 ∧ sc' - sc ≤ cq' - cq.
Proof.
  intros Hsc Hcq. rewrite render_block_closed.
  assert (∃ sc' cq', score s = Some sc' ∧ current_question s = Some cq' ∧
            sc ≤ sc' ∧ cq ≤ cq' ≤ cq + 1 ∧ sc' - sc ≤ cq' - cq) as Hsame.
  { exists sc, cq. repeat split; try done; lia. }
  rewrite Hcq, Hsc.
  repeat case_match; cbn; try done.
  by apply display_question_counters.
Qed.

(** * The claims *)

(** ** Submission *)

(** C1. A submission on question [i] stores the value of the radio group
    (the highlighted choice) as [selected_<i>], adds exactly one to the
    score when that value is the very string [correct_answer] and leaves
    the score alone otherwise, and adds one to [current_question] in both
    cases.  Nothing is raised on the way. *)
Theorem submit_records_scores_advances env q i s sc cq :
  submit_clicked env = true →
  score s = Some sc → current_question s = Some cq → selection_ok s →
  ∃ answers k,
    let choice := radio_value answers k (radio_pick env) in
    let r := display_question env q i s in
    result r = inr tt ∧
    all_answers (final r) !! i = Some answers ∧
    Radio "Select your answer:" answers k ∈ shown r ∧
    selected (final r) !! i = Some choice ∧
    score (final r)
      = Some (if decide (choice = Some (correct_answer q)) then sc + 1 else sc) ∧
    current_question (final r) = Some (cq + 1).
Proof.
  intros Hsub Hsc Hcq Hok.
  destruct (preselect_ok env q i s Hok) as (k & Hk & _).
  exists (answers_at env q i s), k. cbn zeta.
  rewrite display_question_closed. cbn zeta. rewrite Hk, Hsub.
  unfold submit_outcome. cbn. rewrite Hsc, Hcq.
  case_decide; cbn; rewrite !lookup_insert_eq;
    repeat split; try done; set_solver.
Qed.

Lemma started_store_selection_ok : selection_ok started_store.
Proof. intros i v. cbn. by rewrite lookup_empty. Qed.

Lemma submit_records_scores_advances_witness :
  ∃ answers k,
    let choice := radio_value answers k (radio_pick (submit_pick 3)) in
    let r := display_question (submit_pick 3) capital_question 0 started_store in
    result r = inr tt ∧
    all_answers (final r) !! 0 = Some answers ∧
    Radio "Select your answer:" answers k ∈ shown r ∧
    selected (final r) !! 0 = Some choice ∧
    score (final r)
      = Some (if decide (choice = Some (correct_answer capital_question))
              then 0 + 1 else 0) ∧
    current_question (final r) = Some (0 + 1).
Proof.
  apply (submit_records_scores_advances (submit_pick 3) capital_question 0
           started_store 0 0).
  - reflexivity.
  - reflexivity.
  - reflexivity.
  - exact started_store_selection_ok.
Defined.

(** The comparison is exact: an answer that differs from the correct one
    in case only does not score. *)
Example case_matters :
  let q := {| question := "Capital of France?"; correct_answer := "Paris";
              incorrect_answers := ["paris"; "Lyon"; "Nice"] |} in
  let r := display_question (submit_pick 3) q 0 started_store in
  selected (final r) !! 0 = Some (Some "paris") ∧
  score (final r) = Some 0 ∧ current_question (final r) = Some 1.
Proof. by vm_compute. Qed.

Example right_answer_scores :
  let r := display_question (submit_pick 2) capital_question 0 started_store in
  selected (final r) !! 0 = Some (Some "Paris") ∧
  score (final r) = Some 1 ∧ current_question (final r) = Some 1.
Proof. by vm_compute. Qed.

(** ** The answer sets *)

Lemma answers_at_cached env q i s l :
  all_answers s !! i = Some l → answers_at env q i s = l.
Proof. unfold answers_at. by intros ->. Qed.

(** A cached answer set is never written again, whatever is presented. *)
Lemma display_question_answers_stable env q i j s l :
  all_answers s !! j = Some l →
  all_answers (final (display_question env q i s)) !! j = Some l.
Proof.
  intros Hl. rewrite display_question_answers.
  destruct (decide (i = j)) as [->|Hij].
  - by rewrite lookup_insert_eq, (answers_at_cached _ _ _ _ l).
  - by rewrite lookup_insert_ne.
Qed.

Lemma render_block_answers_stable env j s l :
  all_answers s !! j = Some l →
  all_answers (final (render_block env s)) !! j = Some l.
Proof.
  intros Hl. rewrite render_block_closed.
  repeat case_match; cbn; try done.
  by apply display_question_answers_stable.
Qed.

Lemma start_block_answers env c d s :
  all_answers (final (start_block env c d s)) = all_answers s.
Proof.
  rewrite start_block_closed. destruct (start_clicked env); [|done].
  cbn. by repeat case_match.
Qed.

Lemma pass_answers_stable env j s l :
  all_answers s !! j = Some l → all_answers (pass env s) !! j = Some l.
Proof.
  intros Hl. destruct (pass_cases env s) as [->|[[c ->]|[c ->]]]; [done| |].
  - by rewrite start_block_answers.
  - apply render_block_answers_stable. by rewrite start_block_answers.
Qed.

(** Every radio group shown for question [i] lists the cached options. *)
Lemma display_question_shows env q i s l label options k :
  all_answers s !! i = Some l →
  Radio label options k ∈ shown (display_question env q i s) → options = l.
Proof.
  intros Hl. rewrite display_question_closed. cbn zeta.
  rewrite (answers_at_cached _ _ _ _ l Hl). unfold header, submit_outcome.
  repeat case_match; cbn; rewrite ?elem_of_cons, elem_of_nil;
    intros H'; destruct_or?; by simplify_eq.
Qed.

Lemma quiz_continues_data s s' :
  quiz_continues s s' → quiz_data s' = quiz_data s.
Proof. induction 1 as [|env s' _ IH Hd]; [done|]. by rewrite Hd. Qed.

Lemma quiz_continues_answers s s' j l :
  quiz_continues s s' → all_answers s !! j = Some l →
  all_answers s' !! j = Some l.
Proof.
  induction 1 as [|env s' _ IH Hd]; [done|].
  intros Hl. by apply pass_answers_stable, IH.
Qed.

(** C2, amended.  When question [i] of the stored quiz is presented and
    no answer set is cached for [i] yet, the presentation caches a
    rearrangement of [incorrect_answers ++ [correct_answer]] of that
    question, every answer as often as the provider gave it (so without
    repetition exactly when the provider's answers are distinct).  For as
    long as the question list is not replaced, the cache holds this same
    list in this same order, and every presentation of [i] lists
    exactly it. *)
Theorem answer_set_fixed env s qs i q :
  quiz_data s = Some qs → quiz_finished s = Some false →
  current_question s = Some i → 0 ≤ i → qs !! Z.to_nat i = Some q →
  all_answers s !! i = None →
  ∃ l,
    all_answers (final (render_block env s)) !! i = Some l ∧
    l ≡ₚ incorrect_answers q ++ [correct_answer q] ∧
    (NoDup l ↔ NoDup (incorrect_answers q ++ [correct_answer q])) ∧
    ∀ s', quiz_continues (final (render_block env s)) s' →
      quiz_data s' = Some qs ∧
      all_answers s' !! i = Some l ∧
      ∀ env' label options k,
        Radio label options k ∈ shown (display_question env' q i s') →
        options = l.
Proof.
  intros Hqs Hfin Hcq Hi Hq Hnone.
  set (l := shuffle (draws env) (incorrect_answers q ++ [correct_answer q])).
  assert (Z.to_nat i < length qs)%nat as Hlt by by eapply lookup_lt_Some.
  assert (final (render_block env s) = final (display_question env q i s)) as Hr.
  { rewrite render_block_closed, Hqs, Hfin, Hcq.
    destruct (decide (i < Z.of_nat (length qs))); [|lia].
    destruct (getitem_in_range qs i) as [Hg _]; [lia|]. by rewrite Hg, Hq. }
  assert (all_answers (final (render_block env s)) !! i = Some l) as Hl.
  { rewrite Hr, display_question_answers, lookup_insert_eq.
    unfold answers_at. by rewrite Hnone. }
  assert (l ≡ₚ incorrect_answers q ++ [correct_answer q]) as Hp
    by apply shuffle_perm.
  exists l. split; [done|]. split; [done|]. split; [by rewrite Hp|].
  intros s' Hs'. split; [|split].
  - rewrite (quiz_continues_data _ _ Hs'), Hr.
    by destruct (display_question_frame env q i s) as (-> & _).
  - by eapply quiz_continues_answers.
  - intros env' label options k. apply display_question_shows.
    by eapply quiz_continues_answers.
Qed.

Lemma answer_set_fixed_witness :
  ∃ l,
    all_answers (final (render_block idle started_store)) !! 0 = Some l ∧
    l ≡ₚ incorrect_answers capital_question ++ [correct_answer capital_question] ∧
    (NoDup l ↔
     NoDup (incorrect_answers capital_question ++ [correct_answer capital_question])) ∧
    ∀ s', quiz_continues (final (render_block idle started_store)) s' →
      quiz_data s' = Some [capital_question] ∧
      all_answers s' !! 0 = Some l ∧
      ∀ env' label options k,
        Radio label options k
          ∈ shown (display_question env' capital_question 0 s') →
        options = l.
Proof.
  apply (answer_set_fixed idle started_store [capital_question] 0
           capital_question).
  - reflexivity.
  - reflexivity.
  - reflexivity.
  - lia.
  - reflexivity.
  - reflexivity.
Defined.

(** C2 as stated fails.  After a second start that brings another
    question, index 0 still holds, and shows, the answers of the first
    quiz, which are no rearrangement of the answers of the question now at
    index 0; and an answer the provider repeats is repeated in the
    answer set. *)
Lemma stale_answer_set :
  let s1 := pass (press_start [sum_question]) empty_store in
  let s2 := pass (press_start [capital_question]) s1 in
  (reachable s2 ∧
   quiz_data s2 = Some [capital_question] ∧ current_question s2 = Some 0 ∧
   all_answers s2 !! 0 = Some ["5"; "6"; "4"; "3"] ∧
   Radio "Select your answer:" ["5"; "6"; "4"; "3"] 0
     ∈ shown (start_quiz (press_start [capital_question]) s1) ∧
   ¬ (["5"; "6"; "4"; "3"]
        ≡ₚ incorrect_answers capital_question ++ [correct_answer capital_question])) ∧
  (all_answers (pass (press_start [twin_question]) empty_store) !! 0
     = Some ["3"; "4"; "2"; "3"] ∧
   ¬ NoDup ["3"; "4"; "2"; "3"]).
Proof.
  cbn zeta. split; [split; [|split; [|split; [|split; [|split]]]]|split].
  - apply reachable_pass, reachable_pass, reachable_empty.
  - by vm_compute.
  - by vm_compute.
  - by vm_compute.
  - apply list_elem_of_lookup_2 with 3%nat. by vm_compute.
  - intros Hp. assert ("5" ∈ ["Lyon"; "Nice"; "Lille"; "Paris"]) as Hin.
    { cbn in Hp. rewrite <-Hp. apply list_elem_of_here. }
    repeat (apply elem_of_cons in Hin as [Heq|Hin]; [discriminate Heq|]).
    by apply elem_of_nil in Hin.
  - by vm_compute.
  - intros Hnd. apply NoDup_cons in Hnd as [Hnotin _]. apply Hnotin.
    by apply list_elem_of_lookup_2 with 2%nat.
Qed.

(** ** Starting a quiz *)

(** C3. When the start button is pressed and the fetch returns a
    non-empty list, the store right after the start block has
    [current_question = 0], [score = 0], [quiz_finished = False] and
    [quiz_data] equal to the fetched list, whatever its length; and so
    has the store at the end of that pass, unless "Submit Answer" was
    pressed in the same pass. *)
Theorem start_initialises env s c q qs :
  category_of (category_input env) = Some c →
  start_clicked env = true →
  result (get_quiz_data env c (parse_difficulty (difficulty_choice env))
            (question_count env) s) = inr (q :: qs) →
  let fresh (s' : Store) :=
    current_question s' = Some 0 ∧ score s' = Some 0 ∧
    quiz_finished s' = Some false ∧ quiz_data s' = Some (q :: qs) in
  fresh (final (start_block env c (parse_difficulty (difficulty_choice env)) s))
  ∧ (submit_clicked env = false → fresh (pass env s)).
Proof.
  intros Hc Hstart Hfetch fresh.
  assert (final (start_block env c (parse_difficulty (difficulty_choice env)) s)
          = initialised (q :: qs) s) as Hb.
  { rewrite start_block_closed, Hstart. cbn zeta. cbn. by rewrite Hfetch. }
  split; [by rewrite Hb|].
  intros Hsub. unfold pass. rewrite start_quiz_closed, Hc. cbn zeta.
  assert (result (start_block env c (parse_difficulty (difficulty_choice env)) s)
          = inr tt) as ->.
  { rewrite start_block_closed, Hstart. cbn zeta. cbn. by rewrite Hfetch. }
  cbn [result final]. rewrite Hb.
  assert (final (render_block env (initialised (q :: qs) s))
          = final (display_question env q 0 (initialised (q :: qs) s))) as ->.
  { rewrite render_block_closed. cbn [initialised set_quiz_data
      set_quiz_finished set_score set_current_question quiz_data
      quiz_finished current_question].
    destruct (decide (0 < Z.of_nat (length (q :: qs)))) as [|Hn];
      [done|cbn in Hn; lia]. }
  destruct (display_question_no_submit env q 0 (initialised (q :: qs) s) Hsub)
    as [Hcq Hsc].
  destruct (display_question_frame env q 0 (initialised (q :: qs) s))
    as (Hqd & Hfin & _).
  unfold fresh. by rewrite Hcq, Hsc, Hqd, Hfin.
Qed.

Lemma start_initialises_witness :
  let env := press_start [sum_question; capital_question] in
  let fresh (s' : Store) :=
    current_question s' = Some 0 ∧ score s' = Some 0 ∧
    quiz_finished s' = Some false ∧
    quiz_data s' = Some [sum_question; capital_question] in
  fresh (final (start_block env None (parse_difficulty Random) started_store))
  ∧ fresh (pass env started_store).
Proof.
  cbn zeta.
  destruct (start_initialises (press_start [sum_question; capital_question])
              started_store None sum_question [capital_question])
    as [Hblock Hpass].
  - reflexivity.
  - reflexivity.
  - reflexivity.
  - split; [exact Hblock|]. apply Hpass. reflexivity.
Defined.

(** C6. When the start button is pressed and the fetch does not return
    a non-empty list (it showed one of the two failure messages, or
    returned an empty list, or raised), the start block leaves the whole
    store as it was: questions, counters, the finished flag, cached answer
    sets and selections.  The pass then ends with the store of the same
    pass without the press on the start button, or, if the fetch raised,
    with the untouched store. *)
Theorem failed_start_keeps_session env s c :
  category_of (category_input env) = Some c →
  start_clicked env = true →
  let r := get_quiz_data env c (parse_difficulty (difficulty_choice env))
             (question_count env) s in
  (∀ q qs, result r ≠ inr (q :: qs)) →
  final (start_block env c (parse_difficulty (difficulty_choice env)) s) = s
  ∧ pass env s = match result r with
                 | inl _ => s
                 | inr _ => pass (without_start env) s
                 end.
Proof.
  intros Hc Hs r Hr.
  assert (final (start_block env c (parse_difficulty (difficulty_choice env)) s)
          = s) as Hb.
  { rewrite start_block_closed, Hs. cbn zeta. cbn [final]. fold r.
    destruct (result r) as [e|[|q qs]] eqn:Hres; try done.
    by destruct (Hr q qs). }
  split; [done|].
  unfold pass at 1. rewrite start_quiz_closed, Hc. cbn zeta. rewrite Hb.
  rewrite start_block_closed, Hs. cbn zeta. cbn [result]. fold r.
  destruct (result r) as [e|qs] eqn:Hres; cbn [final]; [done|].
  unfold pass. by rewrite (plain_pass (without_start env) s c).
Qed.

Lemma failed_start_keeps_session_witness :
  final (start_block (sample_env 503 0 []) None (parse_difficulty Random)
           started_store) = started_store
  ∧ pass (sample_env 503 0 []) started_store
    = pass (without_start (sample_env 503 0 [])) started_store.
Proof.
  apply (failed_start_keeps_session (sample_env 503 0 []) started_store None).
  - reflexivity.
  - reflexivity.
  - intros q qs. vm_compute. discriminate.
Defined.

Example failed_starts_change_nothing :
  final (start_block (sample_env 200 1 [sum_question]) None None started_store)
    = started_store
  ∧ final (start_block (sample_env 200 0 []) None None started_store)
    = started_store
  ∧ final (start_block provider_down None None started_store) = started_store.
Proof. by vm_compute. Qed.

(** ** Counters *)

(** C4. In every store a browser session can reach, a stored quiz of [N]
    questions has [0 <= current_question <= N] and
    [0 <= score <= current_question]; and every pass from there either
    starts a new quiz or moves the counters forward only, the index by at
    most one and the score by at most the advance of the index. *)
Theorem counters_in_range s qs :
  reachable s → quiz_data s = Some qs →
  ∃ cq sc,
    current_question s = Some cq ∧ score s = Some sc ∧
    0 ≤ cq ≤ Z.of_nat (length qs) ∧ 0 ≤ sc ≤ cq ∧
    ∀ env,
      restarts env s ∨
      ∃ cq' sc',
        current_question (pass env s) = Some cq' ∧
        score (pass env s) = Some sc' ∧
        sc ≤ sc' ∧ cq ≤ cq' ≤ cq + 1 ∧ sc' - sc ≤ cq' - cq.
Proof.
  intros [_ Hok]%reachable_ok Hqs.
  destruct (Hok qs Hqs) as (cq & sc & fin & Hcq & Hsc & Hfin & ? & ? & ?).
  exists cq, sc. repeat split; try done; try lia.
  intros env.
  destruct (pass_restart_cases env s) as [?|[->| ->]]; [by left| |]; right.
  - exists cq, sc. repeat split; try done; lia.
  - destruct (render_block_counters env s sc cq Hsc Hcq)
      as (sc' & cq' & ? & ? & ? & ? & ?).
    by exists cq', sc'.
Qed.

Lemma first_start_reachable :
  reachable (pass (press_start [capital_question]) empty_store).
Proof. apply reachable_pass, reachable_empty. Qed.

Lemma counters_in_range_witness :
  let s := pass (press_start [capital_question]) empty_store in
  ∃ cq sc,
    current_question s = Some cq ∧ score s = Some sc ∧
    0 ≤ cq ≤ Z.of_nat (length [capital_question]) ∧ 0 ≤ sc ≤ cq ∧
    ∀ env,
      restarts env s ∨
      ∃ cq' sc',
        current_question (pass env s) = Some cq' ∧
        score (pass env s) = Some sc' ∧
        sc ≤ sc' ∧ cq ≤ cq' ≤ cq + 1 ∧ sc' - sc ≤ cq' - cq.
Proof.
  apply (counters_in_range
           (pass (press_start [capital_question]) empty_store)
           [capital_question]).
  - exact first_start_reachable.
  - reflexivity.
Defined.

(** ** The end of a quiz *)

(** The last pass of the quiz that asked only for the capital of France:
    the second option is picked and submitted. *)
Example last_submission :
  let s := pass (press_start [capital_question]) empty_store in
  let s' := pass (submit_pick 2) s in
  current_question s' = Some 1 ∧ score s' = Some 1 ∧
  quiz_finished s' = Some false ∧
  shown (start_quiz idle s')
    = banner ++ [Write "### Quiz finished! Your final score is 1/1."] ∧
  quiz_finished (pass idle s') = Some true ∧
  shown (start_quiz idle (pass idle s')) = banner.
Proof. by vm_compute. Qed.




(** ** The provider client *)


Example fetch_three_ways :
  observe (get_quiz_data (sample_env 503 0 []) None None 5 empty_store)
    = Some Transport
  ∧ observe (get_quiz_data (sample_env 200 1 []) None None 5 empty_store)
    = Some NoResults
  ∧ observe (get_quiz_data (sample_env 200 0 [sum_question]) None None 5 empty_store)
    = Some (Fetched [sum_question]).
Proof. by vm_compute. Qed.

(** ** The category field *)

(** The field is refused exactly when it is not made of digits and holds
    something other than white space. *)
Lemma category_of_refused input :
  category_of input = None
  ↔ isdigit input = false ∧ all_chars is_space input = false.
Proof.
  unfold category_of. destruct (isdigit input) eqn:Hd.
  - destruct (int_isdigit _ Hd) as (n & -> & _). cbn.
    split; [done|by intros [? _]].
  - case_decide as Hs; rewrite strip_empty in Hs.
    + rewrite Hs. split; [done|by intros [_ ?]].
    + by apply not_true_is_false in Hs.
Qed.

(** C7, amended.  When the category field consists of ASCII characters,
    is not made of digits only and holds at least one character that is
    not white space, the pass shows the validation message and stops: no
    request is made, nothing is raised and the session store is the one
    the pass found.  (Fields with characters outside ASCII are not
    covered: Python takes some of them for digits or for white
    space.) *)
Theorem invalid_category_aborts env s :
  isascii (category_input env) = true →
  isdigit (category_input env) = false →
  all_chars is_space (category_input env) = false →
  start_quiz env s
  = {| result := inr tt; final := s;
       shown := [Title "Quiz Generator";
                 Write "Customize your quiz and test your knowledge!";
                 Error "Invalid category ID. Please enter a valid number or leave it blank for random."];
       requested := [] |}.
Proof.
  intros _ Hd Hs. rewrite start_quiz_closed.
  by rewrite (proj2 (category_of_refused _) (conj Hd Hs)).
Qed.

Lemma invalid_category_aborts_witness :
  start_quiz (typed_category "history") started_store
  = {| result := inr tt; final := started_store;
       shown := [Title "Quiz Generator";
                 Write "Customize your quiz and test your knowledge!";
                 Error "Invalid category ID. Please enter a valid number or leave it blank for random."];
       requested := [] |}.
Proof.
  apply (invalid_category_aborts (typed_category "history") started_store).
  - reflexivity.
  - reflexivity.
  - reflexivity.
Defined.

(** C7 as stated fails: a field holding one blank is not empty and is no
    number, yet the pass shows no validation message, requests questions
    and replaces the session. *)
Lemma blank_category_fetches :
  let env := typed_category " " in
  category_input env ≠ "" ∧ isdigit (category_input env) = false ∧
  requested (start_quiz env started_store)
    = ["https://opentdb.com/api.php?amount=5&type=multiple"] ∧
  shown (start_quiz env started_store)
    = [Title "Quiz Generator";
       Write "Customize your quiz and test your knowledge!";
       Write "**Question 1:** 2+2?";
       Radio "Select your answer:" ["5"; "6"; "4"; "3"] 0] ∧
  quiz_data (pass env started_store) = Some [sum_question] ∧
  pass env started_store ≠ started_store.
Proof.
  cbn zeta. repeat split; by vm_compute.
Qed.

(** The digits of the field reach the URL as the number they spell, when
    that number is not zero. *)
Example category_in_url :
  requested (start_quiz (typed_category "021") empty_store)
    = ["https://opentdb.com/api.php?amount=5&category=21&type=multiple"].
Proof. by vm_compute. Qed.

(** C9, at the input where the code departs from it.  The field "0" is
    accepted as category 0, but the truth test of line 22 takes 0 for no
    category: the URL is the one built without a category, and the
    request of the pass is not the one with [category=0] but the one
    without a [category] parameter. *)
Theorem category_zero_dropped :
  category_of "0" = Some (Some 0) ∧
  (∀ d n, build_url (Some 0) d n = build_url None d n) ∧
  requested (start_quiz (typed_category "0") empty_store)
    ≠ ["https://opentdb.com/api.php?amount=5&category=0&type=multiple"] ∧
  requested (start_quiz (typed_category "0") empty_store)
    = ["https://opentdb.com/api.php?amount=5&type=multiple"].
Proof.
  split; [by vm_compute|]. split; [done|]. split; by vm_compute.
Qed.

(** ** Pre-selection *)

Lemma radio_shown env q i s k :
  preselect (stored_at i s) (answers_at env q i s) = Some k →
  result (display_question env q i s) ≠ inl ValueError ∧
  Radio "Select your answer:" (answers_at env q i s) k
    ∈ shown (display_question env q i s).
Proof.
  intros Hk. rewrite display_question_closed. cbn zeta. rewrite Hk.
  unfold submit_outcome.
  repeat case_match; cbn; (split; [done|]);
    apply list_elem_of_further, list_elem_of_here.
Qed.

(** C10. In every store a browser session can reach, presenting question
    [i] never fails in the [index] lookup of line 76.  A stored selection
    that is a non-empty string is one of the cached options of [i], and
    the radio group is shown with that option pre-selected; without a
    stored selection, or with [None] or the empty string stored, the
    radio group is shown with its first option pre-selected. *)
Theorem preselection_safe s env q i :
  reachable s →
  let r := display_question env q i s in
  result r ≠ inl ValueError ∧
  match selected s !! i with
  | Some (Some v) =>
      ∃ l, all_answers s !! i = Some l ∧ v ∈ l ∧
        if decide (v = "") then Radio "Select your answer:" l 0 ∈ shown r
        else ∃ k, Py.index v l = Some k ∧ l !! k = Some v ∧
                  Radio "Select your answer:" l k ∈ shown r
  | _ => Radio "Select your answer:" (answers_at env q i s) 0 ∈ shown r
  end.
Proof.
  intros [Hok _]%reachable_ok. cbn zeta.
  destruct (selected s !! i) as [[v|]|] eqn:Hs.
  - destruct (Hok i v Hs) as (l & Hl & Hv).
    pose proof (answers_at_cached env q i s l Hl) as Ha.
    destruct (decide (v = "")) as [->|Hne].
    + destruct (radio_shown env q i s 0) as [Hr Hin].
      { unfold preselect, stored_at. by rewrite Hs. }
      rewrite Ha in Hin. split; [done|]. by exists l.
    + destruct (index_elem_of v l Hv) as [k Hk].
      destruct (radio_shown env q i s k) as [Hr Hin].
      { unfold preselect, stored_at. rewrite Hs, Ha. cbn.
        by destruct (decide (v = "")). }
      rewrite Ha in Hin. split; [done|]. exists l. repeat split; try done.
      exists k. split; [done|]. split; [by apply index_lookup|done].
  - apply radio_shown. unfold preselect, stored_at. by rewrite Hs.
  - apply radio_shown. unfold preselect, stored_at. by rewrite Hs.
Qed.

Lemma second_quiz_store_reachable : reachable second_quiz_store.
Proof. repeat apply reachable_pass. apply reachable_empty. Qed.

Lemma preselection_safe_witness :
  let r := display_question idle capital_question 0 second_quiz_store in
  result r ≠ inl ValueError ∧
  match selected second_quiz_store !! 0 with
  | Some (Some v) =>
      ∃ l, all_answers second_quiz_store !! 0 = Some l ∧ v ∈ l ∧
        if decide (v = "") then Radio "Select your answer:" l 0 ∈ shown r
        else ∃ k, Py.index v l = Some k ∧ l !! k = Some v ∧
                  Radio "Select your answer:" l k ∈ shown r
  | _ => Radio "Select your answer:"
           (answers_at idle capital_question 0 second_quiz_store) 0 ∈ shown r
  end.
Proof.
  apply (preselection_safe second_quiz_store idle capital_question 0).
  exact second_quiz_store_reachable.
Defined.

Example stored_answer_preselected :
  selected second_quiz_store !! 0 = Some (Some "4") ∧
  shown (display_question idle capital_question 0 second_quiz_store)
    = [Write "**Question 1:** Capital of France?";
       Radio "Select your answer:" ["5"; "6"; "4"; "3"] 2].
Proof. by vm_compute. Qed.

(** Outside the reachable stores the lookup can fail: a stored answer
    that is not among the cached options raises [ValueError]. *)
Example lookup_can_fail_elsewhere :
  let s := {| current_question := Some 0; score := Some 0;
              quiz_finished := Some false;
              quiz_data := Some [capital_question];
              all_answers := {[ 0 := ["Lyon"; "Paris"] ]};
              selected := {[ 0 := Some "Rome" ]} |} in
  result (display_question idle capital_question 0 s) = inl ValueError.
Proof. by vm_compute. Qed.

(** * Further properties of the page *)

(** ** Requests *)

Lemma render_block_requested env s : requested (render_block env s) = [].
Proof.
  rewrite render_block_closed.
  repeat case_match; cbn; try done.
  by destruct (display_question_frame env q z s) as (_ & _ & ?).
Qed.

(** X1. For a category field the model reads as Python does (ASCII, not
    longer than [int] converts), a pass asks the provider at most once,
    and only when "Start Quiz" is pressed with an accepted category: the
    requests of the pass are then exactly the URL built from the
    category, the difficulty and the count, and there are none otherwise.
    Presenting a question or submitting an answer never fetches. *)
Theorem requests_only_on_start env s :
  ascii_field (category_input env) = true →
  requested (start_quiz env s)
  = match category_of (category_input env) with
    | Some c =>
        if start_clicked env
        then [build_url c (parse_difficulty (difficulty_choice env))
                (question_count env)]
        else []
    | None => []
    end.
Proof.
  intros _. rewrite start_quiz_closed.
  destruct (category_of (category_input env)) as [c|]; [|done].
  cbn zeta. rewrite start_block_closed.
  destruct (start_clicked env); cbn [result requested ret].
  - rewrite get_quiz_data_requested.
    destruct (result (get_quiz_data _ _ _ _ _)); cbn; [done|].
    by rewrite render_block_requested.
  - cbn. by rewrite render_block_requested.
Qed.

Lemma requests_only_on_start_witness :
  requested (start_quiz (typed_category "21") started_store)
  = ["https://opentdb.com/api.php?amount=5&category=21&type=multiple"]
  ∧ requested (start_quiz (submit_pick 2) started_store) = []
  ∧ requested (start_quiz (typed_category "history") started_store) = [].
Proof.
  split; [|split].
  - apply (requests_only_on_start (typed_category "21") started_store).
    reflexivity.
  - apply (requests_only_on_start (submit_pick 2) started_store).
    reflexivity.
  - apply (requests_only_on_start (typed_category "history") started_store).
    reflexivity.
Defined.

(** ** After the end *)



(** ** Feedback on a submission *)

(** X3. A submission shows the question, the radio group and then exactly
    one verdict: "Correct!" as a success when the value of the radio group
    is the correct answer, and otherwise, as an error, "Wrong! The
    correct answer was: " followed by the correct answer. *)
Theorem submission_feedback env q i s :
  submit_clicked env = true → selection_ok s →
  is_Some (score s) → is_Some (current_question s) →
  ∃ k,
    preselect (stored_at i s) (answers_at env q i s) = Some k ∧
    let answers := answers_at env q i s in
    shown (display_question env q i s)
    = [Write ("**Question " +:+ pretty (i + 1) +:+ ":** " +:+ question q);
       Radio "Select your answer:" answers k;
       if decide (radio_value answers k (radio_pick env)
                  = Some (correct_answer q))
       then Success "Correct!"
       else Error ("Wrong! The correct answer was: " +:+ correct_answer q)].
Proof.
  intros Hsub Hok [sc Hsc] [cq Hcq].
  destruct (preselect_ok env q i s Hok) as (k & Hk & _).
  exists k. split; [done|]. cbn zeta.
  rewrite display_question_closed. cbn zeta. rewrite Hk, Hsub.
  unfold submit_outcome, header. cbn. rewrite Hsc, Hcq.
  by case_decide.
Qed.

Lemma submission_feedback_witness :
  ∃ k,
    preselect (stored_at 0 started_store)
      (answers_at (submit_pick 3) capital_question 0 started_store) = Some k ∧
    let answers := answers_at (submit_pick 3) capital_question 0 started_store in
    shown (display_question (submit_pick 3) capital_question 0 started_store)
    = [Write ("**Question " +:+ pretty (0 + 1) +:+ ":** "
              +:+ question capital_question);
       Radio "Select your answer:" answers k;
       if decide (radio_value answers k (radio_pick (submit_pick 3))
                  = Some (correct_answer capital_question))
       then Success "Correct!"
       else Error ("Wrong! The correct answer was: "
                   +:+ correct_answer capital_question)].
Proof.
  apply (submission_feedback (submit_pick 3) capital_question 0 started_store).
  - reflexivity.
  - exact started_store_selection_ok.
  - by eexists.
  - by eexists.
Defined.

Example wrong_answer_feedback :
  shown (display_question (submit_pick 3) capital_question 0 started_store)
  = [Write "**Question 1:** Capital of France?";
     Radio "Select your answer:" ["Nice"; "Lille"; "Paris"; "Lyon"] 0;
     Error "Wrong! The correct answer was: Paris"].
Proof. by vm_compute. Qed.

(** ** What presenting a question touches *)

(** X4. Presenting question [i], with or without a submission and even
    when it raises, leaves the question list and the finished flag as
    they are and touches no key of another question: for every [j] other
    than [i], the cached answer set and the stored selection of [j] are
    the same afterwards. *)
Theorem presenting_touches_own_keys env q i j s :
  j ≠ i →
  let s' := final (display_question env q i s) in
  quiz_data s' = quiz_data s ∧ quiz_finished s' = quiz_finished s ∧
  all_answers s' !! j = all_answers s !! j ∧
  selected s' !! j = selected s !! j.
Proof.
  intros Hj. cbn zeta.
  destruct (display_question_frame env q i s) as (-> & -> & _).
  rewrite display_question_answers, lookup_insert_ne by done.
  by rewrite display_question_selected_other.
Qed.

Lemma presenting_touches_own_keys_witness :
  let s' := final (display_question (submit_pick 1) capital_question 1
                     second_quiz_store) in
  quiz_data s' = quiz_data second_quiz_store ∧
  quiz_finished s' = quiz_finished second_quiz_store ∧
  all_answers s' !! 0 = all_answers second_quiz_store !! 0 ∧
  selected s' !! 0 = selected second_quiz_store !! 0.
Proof.
  apply (presenting_touches_own_keys (submit_pick 1) capital_question 1 0
           second_quiz_store).
  lia.
Defined.

(** ** Reading the category field *)

(** X5. Lines 100-106 read a category field of ASCII characters, not
    longer than [int] converts, in three ways and raise nothing: a field
    of digits is the number the digits spell, which is never negative; a
    field of white space only (the empty field included) is no category;
    every other field is reported as invalid.  The session store is not
    touched. *)
Theorem category_field_read input s :
  ascii_field input = true →
  let r := parse_category input s in
  final r = s ∧ requested r = [] ∧
  if isdigit input then
    ∃ n, Py.int input = Some n ∧ 0 ≤ n ∧
         result r = inr (inr (Some n)) ∧ shown r = []
  else if all_chars is_space input then
    result r = inr (inr None) ∧ shown r = []
  else
    result r = inr (inl tt) ∧
    shown r = [Error "Invalid category ID. Please enter a valid number or leave it blank for random."].
Proof.
  intros _. cbn zeta. rewrite parse_category_closed.
  destruct (isdigit input) eqn:Hd.
  - destruct (int_isdigit _ Hd) as (n & Hn & ?). rewrite Hn. cbn.
    repeat split; try done. by exists n.
  - destruct (all_chars is_space input) eqn:Hs.
    + apply strip_empty in Hs. by destruct (decide (strip input = "")).
    + destruct (decide (strip input = "")) as [He|]; [|done].
      apply strip_empty in He. congruence.
Qed.

Lemma category_field_read_witness :
  final (parse_category "0012" started_store) = started_store ∧
  requested (parse_category "0012" started_store) = [] ∧
  ∃ n, Py.int "0012" = Some n ∧ 0 ≤ n ∧
       result (parse_category "0012" started_store) = inr (inr (Some n)) ∧
       shown (parse_category "0012" started_store) = [].
Proof.
  apply (category_field_read "0012" started_store).
  reflexivity.
Defined.

Example category_fields :
  result (parse_category "0012" empty_store) = inr (inr (Some 12)) ∧
  result (parse_category "" empty_store) = inr (inr None) ∧
  result (parse_category "  " empty_store) = inr (inr None) ∧
  result (parse_category " 12" empty_store) = inr (inl tt) ∧
  result (parse_category "-3" empty_store) = inr (inl tt) ∧
  result (parse_category "1.5" empty_store) = inr (inl tt).
Proof. by vm_compute. Qed.

(** ** What a start keeps *)

Lemma start_block_selected env c d s :
  selected (final (start_block env c d s)) = selected s.
Proof.
  rewrite start_block_closed. destruct (start_clicked env); [|done].
  cbn. by repeat case_match.
Qed.

(** X6. A start, successful or not, writes none of the per-question
    keys: after the start block every cached answer set and every stored
    selection is what it was.  And no pass at all changes or removes an
    answer set once it is cached, so the answer sets of an earlier quiz
    outlive a new start. *)
Theorem question_keys_outlive_start env c d s i l :
  all_answers s !! i = Some l →
  all_answers (final (start_block env c d s)) = all_answers s ∧
  selected (final (start_block env c d s)) = selected s ∧
  all_answers (pass env s) !! i = Some l.
Proof.
  intros Hl. split; [apply start_block_answers|].
  split; [apply start_block_selected|]. by apply pass_answers_stable.
Qed.

Lemma question_keys_outlive_start_witness :
  let s := pass (press_start [sum_question]) empty_store in
  let env := press_start [capital_question] in
  all_answers (final (start_block env None None s)) = all_answers s ∧
  selected (final (start_block env None None s)) = selected s ∧
  all_answers (pass env s) !! 0 = Some ["5"; "6"; "4"; "3"].
Proof.
  apply (question_keys_outlive_start (press_start [capital_question]) None None
           (pass (press_start [sum_question]) empty_store) 0
           ["5"; "6"; "4"; "3"]).
  reflexivity.
Defined.

(** ** Exceptions *)

(** X7. Let the provider's items carry their three keys and its body the
    keys [response_code] and [results] (the records [Question] and
    [ApiData]), and let the category field be one the model reads as
    Python does.  Then in every store a browser session can reach, a pass
    raises nothing of its own: it ends normally, unless "Start Quiz" was
    pressed and the request failed to connect or its body could not be
    decoded, and then the session store is the one the pass found. *)
Theorem pass_raises_only_on_network env s :
  reachable s → ascii_field (category_input env) = true →
  result (start_quiz env s) = inr tt
  ∨ (start_clicked env = true ∧ pass env s = s ∧
     (result (start_quiz env s) = inl ConnectionError
      ∨ result (start_quiz env s) = inl JSONDecodeError)).
Proof.
  intros [Hsel Hok]%reachable_ok _. unfold pass. rewrite start_quiz_closed.
  destruct (category_of _) as [c|]; [|by left].
  cbn zeta. rewrite start_block_closed.
  destruct (start_clicked env) eqn:Hs; cbn [result final ret].
  - destruct (result (get_quiz_data _ _ _ _ _)) as [e|qs] eqn:Hr; cbn.
    + right. apply get_quiz_data_raises in Hr as [-> | ->]; eauto.
    + left. apply render_block_safe.
      * by destruct qs.
      * destruct qs as [|q qs]; [done|].
        intros qs' [= <-]. exists 0, 0, false. cbn. repeat split; lia.
  - left. by apply render_block_safe.
Qed.

Lemma pass_raises_only_on_network_witness :
  result (start_quiz provider_down second_quiz_store) = inr tt
  ∨ (start_clicked provider_down = true ∧
     pass provider_down second_quiz_store = second_quiz_store ∧
     (result (start_quiz provider_down second_quiz_store) = inl ConnectionError
      ∨ result (start_quiz provider_down second_quiz_store)
        = inl JSONDecodeError)).
Proof.
  apply (pass_raises_only_on_network provider_down second_quiz_store).
  - exact second_quiz_store_reachable.
  - reflexivity.
Defined.

(** ** Rendering again *)

Lemma display_question_prepared env q i s :
  submit_clicked env = false →
  final (display_question env q i s) = prepared env q i s.
Proof.
  intros Hs. rewrite display_question_closed. cbn zeta. rewrite Hs.
  by destruct (preselect _ _).
Qed.





(** ** More invariants of the session *)

(** Induction over the passes of a browser session, block by block. *)
Lemma reachable_invariant (P : Store → Prop) :
  P empty_store →
  (∀ env c d s, session_ok s → P s → P (final (start_block env c d s))) →
  (∀ env s, session_ok s → selection_ok s → P s →
            P (final (render_block env s))) →
  ∀ s, reachable s → P s.
Proof.
  intros Hempty Hstart Hrender s Hs.
  induction Hs as [|env s Hs IH]; [done|].
  destruct (reachable_ok s Hs) as [Hsel Hok].
  destruct (pass_cases env s) as [->|[[c ->]|[c ->]]]; [done|by apply Hstart|].
  apply Hrender.
  - by apply start_block_session_ok.
  - by apply start_block_selection_ok.
  - by apply Hstart.
Qed.

Lemma start_block_final_cases env c d s :
  final (start_block env c d s) = s
  ∨ ∃ q qs, final (start_block env c d s) = initialised (q :: qs) s.
Proof.
  rewrite start_block_closed. destruct (start_clicked env); [|by left].
  cbn. destruct (result _) as [e|[|q qs]]; eauto.
Qed.

Lemma reachable_quiz_ok s : reachable s → quiz_ok s.
Proof.
  revert s. apply reachable_invariant.
  - by intros qs.
  - intros env c d s _ IH.
    destruct (start_block_final_cases env c d s) as [->|(q & qs & ->)]; [done|].
    intros qs' [= <-]. by split.
  - intros env s Hok _ IH qs'. rewrite render_block_closed.
    destruct (quiz_data s) as [qs|] eqn:Hqs; [|cbn; by rewrite Hqs].
    destruct (IH qs Hqs) as [Hne Hfin].
    destruct (Hok qs Hqs) as (cq & sc & fin & Hcq & Hsc & Hf & ? & ? & ?).
    rewrite Hf, Hcq, Hsc. destruct fin.
    { cbn. rewrite Hqs. by intros [= <-]. }
    case_decide.
    + destruct (getitem qs cq) as [q|];
        [|cbn; rewrite Hqs, Hf; by intros [= <-]].
      destruct (display_question_frame env q cq s) as (-> & -> & _).
      rewrite Hqs, Hf. by intros [= <-].
    + cbn. rewrite Hqs, Hcq. intros [= <-]. split; [done|].
      intros _. f_equal. lia.
Qed.

(** X9. In every store a browser session can reach, a stored quiz has at
    least one question, and it is marked finished only when every
    question has been submitted, that is, with [current_question] equal to
    the number of questions. *)
Theorem stored_quiz_sound s qs :
  reachable s → quiz_data s = Some qs →
  (0 < length qs)%nat ∧
  (quiz_finished s = Some true →
   current_question s = Some (Z.of_nat (length qs))).
Proof.
  intros Hs Hqs. destruct (reachable_quiz_ok s Hs qs Hqs) as [Hne Hfin].
  split; [|done]. destruct qs; [done|cbn; lia].
Qed.

Lemma stored_quiz_sound_witness :
  let s := pass idle (pass (submit_pick 2)
                        (pass (press_start [capital_question]) empty_store)) in
  (0 < length [capital_question])%nat ∧
  current_question s = Some (Z.of_nat (length [capital_question])).
Proof.
  cbn zeta.
  destruct (stored_quiz_sound
              (pass idle (pass (submit_pick 2)
                            (pass (press_start [capital_question]) empty_store)))
              [capital_question]) as [Hlen Hfin].
  - repeat apply reachable_pass. apply reachable_empty.
  - reflexivity.
  - split; [exact Hlen|]. apply Hfin. reflexivity.
Defined.

(** ** The score counts the right answers *)

Lemma right_answers_ext s s' qs n :
  (∀ k, (k < n)%nat → selected s' !! Z.of_nat k = selected s !! Z.of_nat k) →
  right_answers s' qs n = right_answers s qs n.
Proof.
  induction n as [|n IH]; [done|]. intros Hsame.
  cbn [right_answers]. rewrite IH by (intros k ?; apply Hsame; lia).
  unfold answered_right. by rewrite Hsame by lia.
Qed.

(** Presenting question [cq] keeps the score equal to the number of
    right answers below [current_question]. *)
Lemma display_question_score_ok env qs q cq sc s :
  current_question s = Some cq → score s = Some sc →
  0 ≤ cq → qs !! Z.to_nat cq = Some q →
  sc = Z.of_nat (right_answers s qs (Z.to_nat cq)) →
  let s' := final (display_question env q cq s) in
  ∃ cq' sc',
    current_question s' = Some cq' ∧ score s' = Some sc' ∧
    sc' = Z.of_nat (right_answers s' qs (Z.to_nat cq')).
Proof.
  intros Hcq Hsc Hpos Hq Hcount. cbn zeta.
  assert (∀ s', (∀ j, j ≠ cq → selected s' !! j = selected s !! j) →
            right_answers s' qs (Z.to_nat cq) = right_answers s qs (Z.to_nat cq))
    as Hkeep.
  { intros s' Hother. apply right_answers_ext. intros k Hk.
    apply Hother. lia. }
  rewrite display_question_closed. cbn zeta.
  destruct (preselect _ _) as [k|]; cbn [final].
  - destruct (submit_clicked env).
    + unfold submit_outcome. cbn. rewrite Hsc, Hcq.
      case_decide as Hchoice; cbn; eexists _, _; (split; [done|]);
        (split; [done|]);
        replace (Z.to_nat (cq + 1)) with (S (Z.to_nat cq)) by lia;
        cbn [right_answers];
        unfold answered_right at 1; rewrite Hq; cbn;
        rewrite Z2Nat.id, lookup_insert_eq by done;
        (rewrite Hkeep;
         [|intros j Hj; cbn; by rewrite !lookup_insert_ne by done]).
      * rewrite bool_decide_eq_true_2 by by rewrite Hchoice. lia.
      * rewrite bool_decide_eq_false_2 by (intros [= ?]; by apply Hchoice).
        lia.
    + exists cq, sc. cbn. repeat split; try done.
      rewrite Hkeep; [done|].
      intros j Hj. cbn. by rewrite lookup_insert_ne.
  - exists cq, sc. cbn. repeat split; try done.
    rewrite Hkeep; [done|].
    intros j Hj. cbn. by rewrite lookup_insert_ne.
Qed.

Lemma reachable_score_ok s : reachable s → score_ok s.
Proof.
  revert s. apply reachable_invariant.
  - by intros qs cq sc.
  - intros env c d s _ IH.
    destruct (start_block_final_cases env c d s) as [->|(q & qs & ->)]; [done|].
    intros qs' cq sc _ [= <-] [= <-]. done.
  - intros env s Hok _ IH qs' cq' sc'. rewrite render_block_closed.
    destruct (quiz_data s) as [qs|] eqn:Hqs; [|cbn; by rewrite Hqs].
    destruct (Hok qs Hqs) as (cq & sc & fin & Hcq & Hsc & Hf & ? & ? & ?).
    pose proof (IH qs cq sc Hqs Hcq Hsc) as Hcount.
    rewrite Hf, Hcq, Hsc. destruct fin.
    { cbn. rewrite Hqs, Hcq, Hsc. by intros [= <-] [= <-] [= <-]. }
    case_decide.
    + destruct (getitem_in_range qs cq) as [Hg [q Hq]]; [lia|].
      rewrite Hq. rewrite Hq in Hg. symmetry in Hg.
      destruct (display_question_frame env q cq s) as (-> & _ & _).
      destruct (display_question_score_ok env qs q cq sc s)
        as (cq2 & sc2 & -> & -> & Hcount2); try done; [lia|].
      rewrite Hqs. by intros [= <-] [= <-] [= <-].
    + cbn. rewrite Hqs, Hcq, Hsc. intros [= <-] [= <-] [= <-].
      rewrite Hcount at 1. f_equal. by apply right_answers_ext.
Qed.

(** X10. In every store a browser session can reach, the score of the
    stored quiz is the number of questions below [current_question] whose
    stored selection is their correct answer; when the quiz is finished
    this is the number of all its questions answered right.  The score
    never exceeds the number of questions. *)
Theorem score_counts_right_answers s qs :
  reachable s → quiz_data s = Some qs →
  ∃ cq sc,
    current_question s = Some cq ∧ score s = Some sc ∧
    sc = Z.of_nat (right_answers s qs (Z.to_nat cq)) ∧
    sc ≤ Z.of_nat (length qs) ∧
    (quiz_finished s = Some true →
     sc = Z.of_nat (right_answers s qs (length qs))).
Proof.
  intros Hs Hqs.
  destruct (reachable_ok s Hs) as [_ Hok].
  destruct (Hok qs Hqs) as (cq & sc & fin & Hcq & Hsc & Hf & ? & ? & ?).
  pose proof (reachable_score_ok s Hs qs cq sc Hqs Hcq Hsc) as Hcount.
  exists cq, sc. repeat split; try done; [lia|].
  intros Hfin. destruct (reachable_quiz_ok s Hs qs Hqs) as [_ Hend].
  rewrite Hcq in Hend. specialize (Hend Hfin). injection Hend as ->.
  by rewrite Nat2Z.id in Hcount.
Qed.

(** A quiz of two questions: the first answered wrong, the second
    right. *)
Lemma score_counts_right_answers_witness :
  let s := passes [press_start [sum_question; capital_question];
                   submit_pick 0; submit_pick 2; idle] empty_store in
  ∃ cq sc,
    current_question s = Some cq ∧ score s = Some sc ∧
    sc = Z.of_nat (right_answers s [sum_question; capital_question]
                     (Z.to_nat cq)) ∧
    sc ≤ Z.of_nat (length [sum_question; capital_question]) ∧
    sc = Z.of_nat (right_answers s [sum_question; capital_question]
                     (length [sum_question; capital_question])).
Proof.
  cbn zeta.
  destruct (score_counts_right_answers
              (passes [press_start [sum_question; capital_question];
                       submit_pick 0; submit_pick 2; idle] empty_store)
              [sum_question; capital_question])
    as (cq & sc & Hcq & Hsc & Hcount & Hle & Hend).
  - repeat apply reachable_pass. apply reachable_empty.
  - reflexivity.
  - exists cq, sc. repeat split; try done. apply Hend. reflexivity.
Defined.

Example score_of_two :
  let s := passes [press_start [sum_question; capital_question];
                   submit_pick 0; submit_pick 2; idle] empty_store in
  score s = Some 1 ∧ current_question s = Some 2 ∧
  quiz_finished s = Some true ∧
  selected s !! 0 = Some (Some "5") ∧ selected s !! 1 = Some (Some "Paris") ∧
  right_answers s [sum_question; capital_question] 2 = 1%nat.
Proof. by vm_compute. Qed.

(** ** Working through a quiz *)








Example two_questions_worked_through :
  let s := pass (press_start [sum_question; capital_question]) empty_store in
  let s' := passes [submit_pick 0; idle; submit_pick 2; idle] s in
  current_question s' = Some 2 ∧ score s' = Some 1 ∧
  quiz_finished s' = Some true.
Proof. by vm_compute. Qed.

(** ** The first quiz of a browser session *)

Lemma first_quiz_reachable s : first_quiz s → reachable s.
Proof.
  induction 1 as [|env s _ IH _]; [apply reachable_empty|].
  by apply reachable_pass.
Qed.

(** A pass that starts a quiz runs the render block on the initialised
    store. *)
Lemma restart_pass env s :
  restarts env s →
  ∃ q qs, pass env s = final (render_block env (initialised (q :: qs) s)).
Proof.
  intros (c & q & qs & Hc & Hstart & Hr). exists q, qs.
  unfold pass. rewrite start_quiz_closed, Hc. cbn zeta.
  rewrite start_block_closed, Hstart. cbn zeta. cbn [result final].
  by rewrite Hr.
Qed.

Lemma render_block_cache_fits env s :
  session_ok s → cache_fits s → cache_fits (final (render_block env s)).
Proof.
  intros Hok Hfits. rewrite render_block_closed.
  destruct (quiz_data s) as [qs|] eqn:Hqs; [|done].
  destruct (Hok qs Hqs) as (cq & sc & fin & Hcq & Hsc & Hf & ? & ? & ?).
  rewrite Hf, Hcq, Hsc. destruct fin; [done|].
  case_decide.
  - destruct (getitem_in_range qs cq) as [Hg [q Hq]]; [lia|].
    rewrite Hq. rewrite Hq in Hg. symmetry in Hg.
    intros i l. rewrite display_question_answers.
    destruct (display_question_frame env q cq s) as (-> & _ & _).
    destruct (decide (i = cq)) as [->|Hi].
    + rewrite lookup_insert_eq. intros [= <-].
      unfold answers_at.
      destruct (all_answers s !! cq) as [l|] eqn:Hl; cbn.
      * by apply Hfits.
      * exists qs, q. repeat split; try done; [lia|]. apply shuffle_perm.
    + rewrite lookup_insert_ne by done. apply Hfits.
  - intros i l. cbn. apply Hfits.
Qed.

Lemma first_quiz_cache_fits s : first_quiz s → cache_fits s.
Proof.
  induction 1 as [|env s Hs IH Hfirst].
  - intros i l. cbn. by rewrite lookup_empty.
  - destruct (reachable_ok s (first_quiz_reachable s Hs)) as [_ Hok].
    destruct (pass_restart_cases env s) as [Hre|[->| ->]]; [|done|].
    + destruct Hfirst as [Hnone|Hno]; [|by destruct Hno].
      destruct (restart_pass env s Hre) as (q & qs & ->).
      apply render_block_cache_fits.
      * intros qs' [= <-]. exists 0, 0, false. cbn. repeat split; lia.
      * intros i l Hl. destruct (IH i l Hl) as (qs' & _ & Hqs' & _).
        congruence.
    + by apply render_block_cache_fits.
Qed.

(** X12. During the first quiz of a browser session every question can
    be answered right: whenever an unfinished quiz is at question [cq],
    the render block shows a radio group whose options are a
    rearrangement of the incorrect answers and the correct answer of that
    very question, so the correct answer is among them. *)
Theorem first_quiz_offers_right_answer env s qs cq :
  first_quiz s →
  quiz_data s = Some qs → quiz_finished s = Some false →
  current_question s = Some cq → cq < Z.of_nat (length qs) →
  ∃ q l k,
    qs !! Z.to_nat cq = Some q ∧
    Radio "Select your answer:" l k ∈ shown (render_block env s) ∧
    l ≡ₚ incorrect_answers q ++ [correct_answer q] ∧
    correct_answer q ∈ l.
Proof.
  intros Hfirst Hqs Hfin Hcq Hlt.
  pose proof (first_quiz_cache_fits s Hfirst) as Hfits.
  destruct (reachable_ok s (first_quiz_reachable s Hfirst)) as [Hsel Hok].
  destruct (Hok qs Hqs) as (cq0 & sc & fin & Hcq0 & Hsc & _ & ? & ? & ?).
  assert (cq0 = cq) as -> by congruence.
  destruct (getitem_in_range qs cq) as [Hg [q Hq]]; [lia|].
  rewrite Hq in Hg. symmetry in Hg.
  destruct (preselect_ok env q cq s Hsel) as (k & Hk & _).
  destruct (radio_shown env q cq s k Hk) as [_ Hin].
  assert (answers_at env q cq s ≡ₚ incorrect_answers q ++ [correct_answer q])
    as Hp.
  { unfold answers_at. destruct (all_answers s !! cq) as [l|] eqn:Hl; cbn.
    - destruct (Hfits cq l Hl) as (qs' & q' & Hqs' & _ & Hq' & Hp).
      by simplify_eq.
    - apply shuffle_perm. }
  exists q, (answers_at env q cq s), k. split; [done|]. split.
  - rewrite render_block_closed, Hqs, Hfin, Hcq.
    destruct (decide (cq < Z.of_nat (length qs))); [|done].
    by rewrite Hq.
  - split; [done|]. rewrite Hp. apply elem_of_app. right.
    apply list_elem_of_here.
Qed.

Lemma first_quiz_offers_right_answer_witness :
  let s := pass (submit_pick 0)
             (pass (press_start [sum_question; capital_question]) empty_store) in
  ∃ q l k,
    [sum_question; capital_question] !! Z.to_nat 1 = Some q ∧
    Radio "Select your answer:" l k ∈ shown (render_block idle s) ∧
    l ≡ₚ incorrect_answers q ++ [correct_answer q] ∧
    correct_answer q ∈ l.
Proof.
  apply (first_quiz_offers_right_answer idle
           (pass (submit_pick 0)
              (pass (press_start [sum_question; capital_question]) empty_store))
           [sum_question; capital_question] 1).
  - apply first_quiz_pass; [apply first_quiz_pass; [apply first_quiz_empty|]|].
    + left. reflexivity.
    + right. intros (c & q & qs & _ & Hstart & _). discriminate Hstart.
  - reflexivity.
  - reflexivity.
  - reflexivity.
  - reflexivity.
Defined.

Lemma render_block_unanswered_ahead env s :
  session_ok s → unanswered_ahead s →
  unanswered_ahead (final (render_block env s)).
Proof.
  intros Hok Hinv. pose proof Hinv as [_ Ha]. rewrite render_block_closed.
  destruct (quiz_data s) as [qs|] eqn:Hqs; [|exact Hinv].
  destruct (Hok qs Hqs) as (cq & sc & fin & Hcq & Hsc & Hf & ? & ? & ?).
  rewrite Hf, Hcq, Hsc. destruct fin; [exact Hinv|].
  case_decide; [|split; [by cbn; rewrite Hqs|done]].
  destruct (getitem qs cq) as [q|]; [|exact Hinv].
  split.
  { destruct (display_question_frame env q cq s) as (-> & _ & _).
    by rewrite Hqs. }
  intros i v.
  destruct (display_question_counters env q cq s sc cq Hsc Hcq)
    as (sc' & cq' & _ & Hcq' & _ & ? & _).
  destruct (decide (i = cq)) as [->|Hi].
  - intros Hv. exists cq'. split; [done|].
    assert (stored_at cq s ≠ Some v) as Hstored.
    { unfold stored_at. intros Hst.
      destruct (selected s !! cq) as [o|] eqn:Hs; [|done].
      cbn in Hst. subst o.
      destruct (Ha cq v Hs) as (cq0 & Hcq0 & ?). simplify_eq. lia. }
    revert Hv Hcq'. rewrite display_question_closed. cbn zeta.
    unfold submit_outcome. cbn. rewrite Hsc, Hcq.
    repeat case_match; cbn; rewrite ?lookup_insert_eq;
      intros; simplify_eq; lia.
  - rewrite display_question_selected_other by done.
    intros Hv. destruct (Ha i v Hv) as (cq0 & Hcq0 & ?).
    exists cq'. split; [done|]. simplify_eq. lia.
Qed.

Lemma first_quiz_unanswered_ahead s : first_quiz s → unanswered_ahead s.
Proof.
  induction 1 as [|env s Hs IH Hcase].
  - split; [done|]. intros i v. cbn. by rewrite lookup_empty.
  - destruct (reachable_ok s (first_quiz_reachable s Hs)) as [_ Hok].
    destruct (pass_restart_cases env s) as [Hre|[->| ->]];
      [|done|by apply render_block_unanswered_ahead].
    destruct Hcase as [Hnone|Hno]; [|by destruct Hno].
    destruct (restart_pass env s Hre) as (q & qs & ->).
    apply render_block_unanswered_ahead.
    + intros qs' [= <-]. exists 0, 0, false. cbn. repeat split; lia.
    + split; [done|]. intros i v Hv. cbn in Hv.
      destruct IH as [Hcqn Ha]. destruct (Ha i v Hv) as (cq0 & Hcq0 & _).
      rewrite (Hcqn Hnone) in Hcq0. done.
Qed.

(** X13. During the first quiz of a browser session a stored answer never
    pre-selects anything: every radio group the render block shows has
    its first option pre-selected, because no answer is stored for a
    question before it is submitted and no question is presented again
    after it.  (The [index] lookup of line 76 only ever runs on
    selections left over from an earlier quiz.) *)
Theorem first_quiz_preselects_first env s label l k :
  first_quiz s →
  Radio label l k ∈ shown (render_block env s) → k = 0%nat.
Proof.
  intros [_ Hahead]%first_quiz_unanswered_ahead.
  rewrite render_block_closed.
  destruct (quiz_data s) as [qs|]; [|by intros ?%elem_of_nil].
  destruct (quiz_finished s) as [[]|]; try by intros ?%elem_of_nil.
  destruct (current_question s) as [cq|] eqn:Hcq; [|by intros ?%elem_of_nil].
  case_decide.
  - destruct (getitem qs cq) as [q|]; [|by intros ?%elem_of_nil].
    assert (preselect (stored_at cq s) (answers_at env q cq s) = Some 0%nat)
      as Hpre.
    { unfold preselect, stored_at.
      destruct (selected s !! cq) as [[v|]|] eqn:Hs; try done.
      destruct (Hahead cq v Hs) as (cq0 & Hcq0 & ?). simplify_eq. lia. }
    rewrite display_question_closed. cbn zeta. rewrite Hpre.
    unfold header, submit_outcome.
    repeat case_match; cbn; rewrite ?elem_of_cons, elem_of_nil;
      intros H'; destruct_or?; by simplify_eq.
  - destruct (score s); [|by intros ?%elem_of_nil].
    cbn. unfold summary. rewrite elem_of_cons, elem_of_nil.
    intros [?|[]]. done.
Qed.

Lemma first_quiz_preselects_first_witness :
  let s := pass (submit_pick 0)
             (pass (press_start [sum_question; capital_question]) empty_store) in
  Radio "Select your answer:" ["Nice"; "Lille"; "Paris"; "Lyon"] 0
    ∈ shown (render_block idle s)
  ∧ 0%nat = 0%nat.
Proof.
  cbn zeta.
  assert (Radio "Select your answer:" ["Nice"; "Lille"; "Paris"; "Lyon"] 0
            ∈ shown (render_block idle
                       (pass (submit_pick 0)
                          (pass (press_start [sum_question; capital_question])
                             empty_store)))) as Hin.
  { apply list_elem_of_lookup_2 with 1%nat. by vm_compute. }
  split; [exact Hin|].
  apply (first_quiz_preselects_first idle
           (pass (submit_pick 0)
              (pass (press_start [sum_question; capital_question]) empty_store))
           "Select your answer:" ["Nice"; "Lille"; "Paris"; "Lyon"] 0).
  - apply first_quiz_pass; [apply first_quiz_pass; [apply first_quiz_empty|]|].
    + left. reflexivity.
    + right. intros (c & q & qs & _ & Hstart & _). discriminate Hstart.
  - exact Hin.
Defined.

(** ** The request URL *)

(** X14. For every category other than 0 the request URL is the base
    address followed by [amount], then [category] when there is one, then
    [difficulty] in lower case unless "Random" is selected, and always
    [type=multiple] at the end. *)
Theorem request_url_shape c d n :
  c ≠ Some 0 →
  build_url c (parse_difficulty d) n
  = "https://opentdb.com/api.php?" +:+ "amount=" +:+ pretty n
    +:+ match c with
        | Some id => "&category=" +:+ pretty id
        | None => ""
        end
    +:+ match d with
        | Random => ""
        | Easy => "&difficulty=easy"
        | Medium => "&difficulty=medium"
        | Hard => "&difficulty=hard"
        end
    +:+ "&type=multiple".
Proof.
  intros Hc. destruct c as [id|].
  - rewrite build_url_category by congruence.
    by rewrite string_app_assoc.
  - by rewrite build_url_no_category.
Qed.

Lemma request_url_shape_witness :
  build_url (Some 21) (parse_difficulty Hard) 10
  = "https://opentdb.com/api.php?amount=10&category=21&difficulty=hard&type=multiple".
Proof.
  apply (request_url_shape (Some 21) Hard 10).
  discriminate.
Defined.

(** ** Passes without a button *)

(** X15. A pass in which neither button is pressed records nothing: the
    question list, the index and the score are what they were, and the
    answers stored as selections are the same (a selection key may be
    created, holding [None]).  Picking an option of the radio group
    without submitting therefore never scores. *)
Theorem idle_pass_records_nothing env s :
  start_clicked env = false → submit_clicked env = false →
  quiz_data (pass env s) = quiz_data s ∧
  current_question (pass env s) = current_question s ∧
  score (pass env s) = score s ∧
  ∀ i v, selected (pass env s) !! i = Some (Some v)
         ↔ selected s !! i = Some (Some v).
Proof.
  intros Hstart Hsub.
  destruct (pass_restart_cases env s) as [Hre|[->| ->]]; [|done|].
  { destruct Hre as (c & q & qs & _ & Hst & _). congruence. }
  rewrite render_block_closed.
  destruct (quiz_data s) as [qs|] eqn:Hqs; [|cbn; by rewrite Hqs].
  destruct (quiz_finished s) as [[]|]; try (cbn; by rewrite Hqs).
  destruct (current_question s) as [cq|] eqn:Hcq;
    [|cbn; by rewrite Hqs, Hcq].
  case_decide.
  - destruct (getitem qs cq) as [q|]; [|cbn; by rewrite Hqs, Hcq].
    rewrite (display_question_prepared env q cq s Hsub). cbn.
    rewrite Hqs, Hcq. repeat split; try done.
    + destruct (decide (i = cq)) as [->|Hi].
      * rewrite lookup_insert_eq. unfold stored_at. intros [= Hv].
        by destruct (selected s !! cq) as [o|]; simplify_eq/=.
      * by rewrite lookup_insert_ne.
    + destruct (decide (i = cq)) as [->|Hi].
      * rewrite lookup_insert_eq. unfold stored_at. by intros ->.
      * by rewrite lookup_insert_ne.
  - destruct (score s) eqn:Hsc; cbn; by rewrite Hqs, Hcq, ?Hsc.
Qed.

(** The user picks the right answer and does not submit. *)
Lemma idle_pass_records_nothing_witness :
  let env := {| category_input := ""; difficulty_choice := Random;
                question_count := 5; start_clicked := false;
                http := λ _, Unreachable; draws := [];
                radio_pick := Some 2%nat; submit_clicked := false |} in
  quiz_data (pass env started_store) = quiz_data started_store ∧
  current_question (pass env started_store) = current_question started_store ∧
  score (pass env started_store) = score started_store ∧
  ∀ i v, selected (pass env started_store) !! i = Some (Some v)
         ↔ selected started_store !! i = Some (Some v).
Proof.
  cbn zeta. apply idle_pass_records_nothing.
  - reflexivity.
  - reflexivity.
Defined.
